(** * The ATN graph container of the antlr4 Go runtime (atn.go)

    A shallow embedding of [atn.go]: the [ATN] struct, its state and
    decision bookkeeping ([addState], [removeState], [defineDecisionState],
    [getDecisionState]) and the reachability queries built on the lookahead
    analyzer ([NextTokensInContext], [NextTokensNoContext], [NextTokens],
    [getExpectedTokens]).

    Go objects that the file mutates through pointers (the ATN states)
    live in an explicit store indexed by address, so that two references
    to one state see each other's writes.  Functions that mutate or that
    may panic are written in a small state-and-panic monad: a Go panic
    carries the store it leaves behind, because a panic does not roll
    back earlier writes.  The model is sequential: the [sync.Mutex]
    [a.mu] taken by [NextTokensNoContext] is always free on entry and
    released on exit (also by the deferred unlock when the body panics),
    so it is not represented. *)

From stdpp Require Import base gmap sets list strings sorting.
From Stdlib Require Import ZArith Lia.

Local Open Scope Z_scope.
#[local] Set Warnings "-clear-no-such-hyp".

(** ** Values the file receives from the rest of the package *)

(** Modelled from the spec: the [IntervalSet] type is declared outside
    atn.go.  The spec describes it as a set of integer token identifiers
    with membership, single-element insertion and removal and in-place
    union; atn.go itself writes its [readOnly] field.  It is modelled
    as a finite set of integers together with that flag. *)
Record IntervalSet : Type := mkIntervalSet {
  elems : gset Z;
  readOnly : bool
}.

(** [NewIntervalSet()]: an empty set that may still be altered. *)
Definition NewIntervalSet : IntervalSet :=
  {| elems := ∅; readOnly := false |}.

(** [i.Contains(v)]. *)
Definition Contains (i : IntervalSet) (v : Z) : bool :=
  bool_decide (v ∈ elems i).

(** [i.addSet(other)]: union in place. *)
Definition addSet (i other : IntervalSet) : IntervalSet :=
  {| elems := elems i ∪ elems other; readOnly := readOnly i |}.

(** [i.removeOne(v)], taken to remove [v] and nothing else, as the
    spec describes single-element removal. *)
Definition removeOne (i : IntervalSet) (v : Z) : IntervalSet :=
  {| elems := elems i ∖ {[ v ]}; readOnly := readOnly i |}.

(** [i.AddOne(v)]. *)
Definition AddOne (i : IntervalSet) (v : Z) : IntervalSet :=
  {| elems := elems i ∪ {[ v ]}; readOnly := readOnly i |}.

(** [iset.readOnly = true]. *)
Definition setReadOnly (i : IntervalSet) : IntervalSet :=
  {| elems := elems i; readOnly := true |}.

(** Addresses of state objects. *)
Definition addr := nat.

(** An [ATNState] interface value: [nil] or a pointer to a state
    object.  A [DecisionState] value has the same shape. *)
Definition ATNState := option addr.
Definition DecisionState := option addr.

(** Modelled from the spec: the [Transition] interface and the
    [RuleTransition] struct are declared outside atn.go.  A transition
    is modelled as far as atn.go inspects it: [getExpectedTokens]
    asserts that the first outgoing transition of an invoking state is
    a rule transition and reads its [followState], the state after the
    nested rule call in the caller.  [NilTransition] is a [nil]
    interface value stored in the slice. *)
Inductive Transition : Type :=
| RuleTransition (target : ATNState) (followState : ATNState)
| OtherTransition (target : ATNState)
| NilTransition.

(** Modelled from the spec: the [ATNState] and [DecisionState]
    interfaces and the structs behind them are declared outside atn.go.
    A state object has the fields reached through the methods atn.go
    calls: [SetATN], [SetStateNumber]/[GetStateNumber],
    [GetTransitions], [GetNextTokenWithinRule]/[SetNextTokenWithinRule]
    (the optional cached set the spec calls next-token-within-rule)
    and, for decision states, [setDecision]/[getDecision].  There is one
    ATN in the store, so the back pointer set by [SetATN] is a flag. *)
Record StateObj : Type := mkStateObj {
  atnSet : bool;
  stateNumber : Z;
  transitions : list Transition;
  nextTokenWithinRule : option IntervalSet;
  decision : Z
}.

Definition SetATN (o : StateObj) : StateObj :=
  {| atnSet := true; stateNumber := stateNumber o;
     transitions := transitions o;
     nextTokenWithinRule := nextTokenWithinRule o;
     decision := decision o |}.

Definition SetStateNumber (o : StateObj) (n : Z) : StateObj :=
  {| atnSet := atnSet o; stateNumber := n;
     transitions := transitions o;
     nextTokenWithinRule := nextTokenWithinRule o;
     decision := decision o |}.

Definition SetNextTokenWithinRule (o : StateObj) (v : IntervalSet) : StateObj :=
  {| atnSet := atnSet o; stateNumber := stateNumber o;
     transitions := transitions o;
     nextTokenWithinRule := Some v;
     decision := decision o |}.

Definition setDecision (o : StateObj) (d : Z) : StateObj :=
  {| atnSet := atnSet o; stateNumber := stateNumber o;
     transitions := transitions o;
     nextTokenWithinRule := nextTokenWithinRule o;
     decision := d |}.

(** The object with its memo field cleared: what is left of a state
    for a reader that never looks at the memo. *)
Definition clearMemo (o : StateObj) : StateObj :=
  {| atnSet := atnSet o; stateNumber := stateNumber o;
     transitions := transitions o;
     nextTokenWithinRule := None;
     decision := decision o |}.

(** Modelled from the spec: the [RuleContext] interface is declared
    outside atn.go.  A context object is a link of the chain the spec
    describes: the state number of the point in the caller where this
    invocation happened ([GetInvokingState()]) and the parent link
    ([GetParent()]), which is [nil] at the top of the chain.  The chain
    is an immutable linked list. *)
Unset Elimination Schemes.
Inductive RuleContextObj : Type :=
| mkRuleContext (invoking : Z) (parentCtx : option RuleContextObj).
Set Elimination Schemes.

(** A [RuleContext] interface value: [nil] or a context object. *)
Definition RuleContext := option RuleContextObj.


Definition GetParent (c : RuleContextObj) : option RuleContextObj :=
  match c with mkRuleContext _ p => p end.

(** ** The ATN struct *)

Record ATN : Type := mkATN {
  DecisionToState : list DecisionState;
  grammarType : Z;
  lexerActions : list Z;
  maxTokenType : Z;
  modeNameToStartState : gmap string ATNState;
  modeToStartState : list ATNState;
  ruleToStartState : list ATNState;
  ruleToStopState : list ATNState;
  ruleToTokenType : list Z;
  states : list ATNState
}.

(** [NewATN(grammarType, maxTokenType)]: every other field has its Go
    zero value, except the mode map, which is made empty. *)
Definition NewATN (grammarType maxTokenType : Z) : ATN :=
  {| DecisionToState := [];
     grammarType := grammarType;
     lexerActions := [];
     maxTokenType := maxTokenType;
     modeNameToStartState := ∅;
     modeToStartState := [];
     ruleToStartState := [];
     ruleToStopState := [];
     ruleToTokenType := [];
     states := [] |}.

Definition set_states (a : ATN) (l : list ATNState) : ATN :=
  {| DecisionToState := DecisionToState a;
     grammarType := grammarType a;
     lexerActions := lexerActions a;
     maxTokenType := maxTokenType a;
     modeNameToStartState := modeNameToStartState a;
     modeToStartState := modeToStartState a;
     ruleToStartState := ruleToStartState a;
     ruleToStopState := ruleToStopState a;
     ruleToTokenType := ruleToTokenType a;
     states := l |}.

Definition set_DecisionToState (a : ATN) (l : list DecisionState) : ATN :=
  {| DecisionToState := l;
     grammarType := grammarType a;
     lexerActions := lexerActions a;
     maxTokenType := maxTokenType a;
     modeNameToStartState := modeNameToStartState a;
     modeToStartState := modeToStartState a;
     ruleToStartState := ruleToStartState a;
     ruleToStopState := ruleToStopState a;
     ruleToTokenType := ruleToTokenType a;
     states := states a |}.

(** ** The store *)

(** One call of the lookahead analyzer, as recorded in the trace. *)
Record LookCall : Type := mkLookCall {
  lookState : ATNState;
  lookCtx : RuleContext
}.

(** The program state: the package-level variable
    [ATNInvalidAltNumber], the ATN struct, the state objects, and a
    trace of the calls made to the lookahead analyzer (a ghost field:
    no code reads it). *)
Record World : Type := mkWorld {
  ATNInvalidAltNumber : Z;
  atn : ATN;
  heap : gmap addr StateObj;
  lookTrace : list LookCall
}.

Definition set_atn (w : World) (a : ATN) : World :=
  {| ATNInvalidAltNumber := ATNInvalidAltNumber w; atn := a;
     heap := heap w; lookTrace := lookTrace w |}.

Definition set_heap (w : World) (h : gmap addr StateObj) : World :=
  {| ATNInvalidAltNumber := ATNInvalidAltNumber w; atn := atn w;
     heap := h; lookTrace := lookTrace w |}.

Definition log_look (w : World) (c : LookCall) : World :=
  {| ATNInvalidAltNumber := ATNInvalidAltNumber w; atn := atn w;
     heap := heap w; lookTrace := lookTrace w ++ [c] |}.

(** ** Panics and the monad *)

(** What a Go panic carries: the value given to [panic], or one of the
    run-time errors the code of atn.go can raise. *)
Inductive Panic : Type :=
| PanicMsg (msg : string)
| NilDereference
| IndexOutOfRange
| TypeAssertion.

Inductive Result (A : Type) : Type :=
| Ok (a : A)
| Panicked (p : Panic).
Arguments Ok {A} a.
Arguments Panicked {A} p.

Definition M (A : Type) : Type := World → Result A * World.

Definition ret {A} (a : A) : M A := λ w, (Ok a, w).
Definition throw {A} (p : Panic) : M A := λ w, (Panicked p, w).
Definition bind {A B} (m : M A) (k : A → M B) : M B :=
  λ w, match m w with
       | (Ok a, w') => k a w'
       | (Panicked p, w') => (Panicked p, w')
       end.
Definition get : M World := λ w, (Ok w, w).
Definition modify (f : World → World) : M unit := λ w, (Ok tt, f w).

Notation "'let*' x ':=' m 'in' k" := (bind m (λ x, k))
  (at level 10, x pattern, m at level 100, k at level 200).

(** Go's [len]. *)
Definition len {A} (l : list A) : Z := Z.of_nat (length l).

(** [l[i]] for a Go [int] index: [None] when the index is out of range,
    where Go panics. *)
Definition index {A} (l : list A) (i : Z) : option A :=
  if decide (0 ≤ i) then l !! Z.to_nat i else None.

(** Read the object behind a non-nil interface value; a method call on
    [nil] panics.  An address that holds no object stands for a pointer
    to no state and is treated like [nil]. *)
Definition deref (s : ATNState) : M StateObj :=
  λ w, match s with
       | None => (Panicked NilDereference, w)
       | Some p =>
           match heap w !! p with
           | Some o => (Ok o, w)
           | None => (Panicked NilDereference, w)
           end
       end.

(** Write back a field update of the object at [p]. *)
Definition update (p : addr) (f : StateObj → StateObj) : M unit :=
  modify (λ w, set_heap w (alter f p (heap w))).

(** A setter called through an interface value. *)
Definition call_set (s : ATNState) (f : StateObj → StateObj) : M unit :=
  match s with
  | None => throw NilDereference
  | Some p => let* _ := deref s in update p f
  end.

(** [l[i]] as a statement: the run-time check of the index. *)
Definition at_index {A} (l : list A) (i : Z) : M A :=
  match index l i with
  | Some x => ret x
  | None => throw IndexOutOfRange
  end.

(** ** State and decision bookkeeping *)

(** [func (a *ATN) addState(state ATNState)]. *)
Definition addState (state : ATNState) : M unit :=
  let* w := get in
  let* _ :=
    match state with
    | Some _ =>
        let* _ := call_set state SetATN in
        call_set state (λ o, SetStateNumber o (len (states (atn w))))
    | None => ret tt
    end in
  modify (λ w, set_atn w (set_states (atn w) (states (atn w) ++ [state]))).

(** [func (a *ATN) removeState(state ATNState)]. *)
Definition removeState (state : ATNState) : M unit :=
  let* o := deref state in
  let k := stateNumber o in
  let* w := get in
  if decide (0 ≤ k < len (states (atn w))) then
    modify (λ w, set_atn w
      (set_states (atn w) (<[Z.to_nat k := None]> (states (atn w)))))
  else throw IndexOutOfRange.

(** [func (a *ATN) defineDecisionState(s DecisionState) int]. *)
Definition defineDecisionState (s : DecisionState) : M Z :=
  let* _ := modify (λ w, set_atn w
      (set_DecisionToState (atn w) (DecisionToState (atn w) ++ [s]))) in
  let* w := get in
  let* _ := call_set s
      (λ o, setDecision o (len (DecisionToState (atn w)) - 1)) in
  let* o := deref s in
  ret (decision o).

(** [func (a *ATN) getDecisionState(decision int) DecisionState]. *)
Definition getDecisionState (decision : Z) : M DecisionState :=
  let* w := get in
  if decide (len (DecisionToState (atn w)) = 0) then ret None
  else at_index (DecisionToState (atn w)) decision.

Definition GetRuleToStartState (i : Z) : M ATNState :=
  let* w := get in at_index (ruleToStartState (atn w)) i.

Definition GetRuleToStopState (i : Z) : M ATNState :=
  let* w := get in at_index (ruleToStopState (atn w)) i.

Definition GetMaxTokenType : M Z :=
  let* w := get in ret (maxTokenType (atn w)).

(** ** The reachability queries *)

(** The type of [LL1Analyzer.Look] as atn.go calls it,
    [NewLL1Analyzer(a).Look(s, stopState, ctx)]: it is given the ATN and
    the state objects without their memo field, which the analyzer
    never reads, and returns a fresh set.  The analyzer is a function
    here: a call of it is taken to return, and what the analyzer does
    on a graph it cannot walk is outside this development. *)
Definition Analyzer : Type :=
  ATN → gmap addr StateObj → ATNState → ATNState → RuleContext → IntervalSet.

Section Reachability.

(** The lookahead analyzer and the two reserved token types
    ([antlr.TokenEpsilon], [antlr.TokenEOF]) are declared in other
    files of the package and are taken as parameters. *)
Variable Look : Analyzer.
Variable TokenEpsilon TokenEOF : Z.

(** [func (a *ATN) NextTokensInContext(s ATNState, ctx RuleContext)]. *)
Definition NextTokensInContext (s : ATNState) (ctx : RuleContext)
  : M IntervalSet :=
  λ w, (Ok (Look (atn w) (clearMemo <$> heap w) s None ctx),
        log_look w (mkLookCall s ctx)).

(** [func (a *ATN) NextTokensNoContext(s ATNState)]. *)
Definition NextTokensNoContext (s : ATNState) : M IntervalSet :=
  let* o := deref s in
  match nextTokenWithinRule o with
  | Some iset => ret iset
  | None =>
      let* iset := NextTokensInContext s None in
      let iset := setReadOnly iset in
      let* _ := call_set s (λ o, SetNextTokenWithinRule o iset) in
      ret iset
  end.

(** [func (a *ATN) NextTokens(s ATNState, ctx RuleContext)]. *)
Definition NextTokens (s : ATNState) (ctx : RuleContext) : M IntervalSet :=
  match ctx with
  | None => NextTokensNoContext s
  | Some _ => NextTokensInContext s ctx
  end.

(** The type assertion of the loop body, which reads the
    [followState] of a transition that must be a rule transition. *)
Definition followStateOf (rt : Transition) : M ATNState :=
  match rt with
  | RuleTransition _ fs => ret fs
  | _ => throw TypeAssertion
  end.

(** The [for] loop of [getExpectedTokens], entered with a non-nil
    [ctx]; it returns the final [following] and [expected]. *)
Fixpoint expectedLoopFrom (c : RuleContextObj)
    (following expected : IntervalSet) : M (IntervalSet * IntervalSet) :=
  match c with
  | mkRuleContext inv par =>
      if bool_decide (0 ≤ inv) && Contains following TokenEpsilon then
        let* w := get in
        let* invokingState := at_index (states (atn w)) inv in
        let* o := deref invokingState in
        let* rt := at_index (transitions o) 0 in
        let* fs := followStateOf rt in
        let* following := NextTokens fs None in
        let expected := addSet expected following in
        let expected := removeOne expected TokenEpsilon in
        match par with
        | None => throw TypeAssertion
        | Some p => expectedLoopFrom p following expected
        end
      else ret (following, expected)
  end.

Definition expectedLoop (ctx : RuleContext)
    (following expected : IntervalSet) : M (IntervalSet * IntervalSet) :=
  match ctx with
  | None => ret (following, expected)
  | Some c => expectedLoopFrom c following expected
  end.

(** [func (a *ATN) getExpectedTokens(stateNumber int, ctx RuleContext)]. *)
Definition getExpectedTokens (stateNumber : Z) (ctx : RuleContext)
  : M IntervalSet :=
  let* w := get in
  if decide (stateNumber < 0 ∨ len (states (atn w)) ≤ stateNumber) then
    throw (PanicMsg "Invalid state number.")
  else
    let* s := at_index (states (atn w)) stateNumber in
    let* following := NextTokens s None in
    if negb (Contains following TokenEpsilon) then ret following
    else
      let expected := NewIntervalSet in
      let expected := addSet expected following in
      let expected := removeOne expected TokenEpsilon in
      let* fe := expectedLoop ctx following expected in
      let following := fe.1 in
      let expected := fe.2 in
      let expected :=
        if Contains following TokenEpsilon
        then AddOne expected TokenEOF else expected in
      ret expected.

End Reachability.

(** ** The steps of the loop of [getExpectedTokens], named *)

Section Reference.

Variable Look : Analyzer.
Variable TokenEpsilon TokenEOF : Z.


(** The follow state carried by the first outgoing transition of the
    state numbered [inv]. *)
Definition enclosingFollowState (inv : Z) : M ATNState :=
  let* w := get in
  let* invokingState := at_index (states (atn w)) inv in
  let* o := deref invokingState in
  let* rt := at_index (transitions o) 0 in
  followStateOf rt.

End Reference.

(** ** Context chains *)

(** Modelled from the spec: [ParserRuleContext.EMPTY], named in the
    comment of [getExpectedTokens], is declared outside atn.go.  It is
    the synthetic root link of the spec, at which the walk of
    [getExpectedTokens] ends: a context object without a valid invoking
    state, whose reference to a parent is [nil]. *)
Definition EmptyContext : RuleContextObj := mkRuleContext (-1) None.


(** Every link that records an invocation has a parent link: the chain
    ends in a link without a valid invoking state. *)
Fixpoint chainLinked (c : RuleContextObj) : bool :=
  match c with
  | mkRuleContext inv par =>
      match par with
      | None => bool_decide (inv < 0)
      | Some p => chainLinked p
      end
  end.

Definition wellLinked (ctx : RuleContext) : bool :=
  match ctx with
  | None => true
  | Some c => chainLinked c
  end.

(** ** Sequences of calls *)

(** The store a computation leaves, whether it returned or panicked. *)
Definition exec {A} (m : M A) (w : World) : World := (m w).2.

(** The queries of the file: calls that read the graph. *)
Inductive Query : Type :=
| QNextTokensInContext (s : ATNState) (ctx : RuleContext)
| QNextTokensNoContext (s : ATNState)
| QNextTokens (s : ATNState) (ctx : RuleContext)
| QGetExpectedTokens (stateNumber : Z) (ctx : RuleContext)
| QGetDecisionState (decision : Z)
| QGetRuleToStartState (i : Z)
| QGetRuleToStopState (i : Z)
| QGetMaxTokenType.

(** The calls that change the graph. *)
Inductive Mutation : Type :=
| MAddState (state : ATNState)
| MRemoveState (state : ATNState)
| MDefineDecisionState (s : DecisionState).

Definition runMutation (m : Mutation) : World → World :=
  match m with
  | MAddState s => exec (addState s)
  | MRemoveState s => exec (removeState s)
  | MDefineDecisionState s => exec (defineDecisionState s)
  end.

(** Any call into the file; [NewATN] starts a new graph. *)
Inductive Call : Type :=
| CNewATN (grammarType maxTokenType : Z)
| CQuery (q : Query)
| CMutation (m : Mutation).

Section Calls.

Variable Look : Analyzer.
Variable TokenEpsilon TokenEOF : Z.

Definition runQuery (q : Query) : World → World :=
  match q with
  | QNextTokensInContext s ctx => exec (NextTokensInContext Look s ctx)
  | QNextTokensNoContext s => exec (NextTokensNoContext Look s)
  | QNextTokens s ctx => exec (NextTokens Look s ctx)
  | QGetExpectedTokens n ctx =>
      exec (getExpectedTokens Look TokenEpsilon TokenEOF n ctx)
  | QGetDecisionState d => exec (getDecisionState d)
  | QGetRuleToStartState i => exec (GetRuleToStartState i)
  | QGetRuleToStopState i => exec (GetRuleToStopState i)
  | QGetMaxTokenType => exec GetMaxTokenType
  end.

Definition runQueries (qs : list Query) (w : World) : World :=
  foldl (λ w q, runQuery q w) w qs.

Definition runCall (c : Call) : World → World :=
  match c with
  | CNewATN g t => λ w, set_atn w (NewATN g t)
  | CQuery q => runQuery q
  | CMutation m => runMutation m
  end.

Definition runCalls (cs : list Call) (w : World) : World :=
  foldl (λ w c, runCall c w) w cs.

End Calls.

(** The store at program start: the package-level variable holds the
    zero value of [int]; the graph is the one [NewATN] returns. *)
Definition initialWorld (grammarType maxTokenType : Z)
    (h : gmap addr StateObj) : World :=
  {| ATNInvalidAltNumber := 0;
     atn := NewATN grammarType maxTokenType;
     heap := h;
     lookTrace := [] |}.

(** The numbers handed out by the [addState] calls of a sequence of
    graph mutations, in order: the number a call stamped on its state. *)
Fixpoint assignedNumbers (ms : list Mutation) (w : World) : list Z :=
  match ms with
  | [] => []
  | m :: ms' =>
      let w' := runMutation m w in
      match m with
      | MAddState (Some p) =>
          match addState (Some p) w with
          | (Ok _, _) =>
              match heap w' !! p with
              | Some o => stateNumber o :: assignedNumbers ms' w'
              | None => assignedNumbers ms' w'
              end
          | _ => assignedNumbers ms' w'
          end
      | _ => assignedNumbers ms' w'
      end
  end.

(** Define the decision states of a list, in order, and collect the
    indices returned. *)
Fixpoint defineAll (ss : list DecisionState) : M (list Z) :=
  match ss with
  | [] => ret []
  | s :: ss' =>
      let* d := defineDecisionState s in
      let* ds := defineAll ss' in
      ret (d :: ds)
  end.

(** Overwrite the memo field of every state object by [g]. *)
Definition rewriteMemo (g : addr → option IntervalSet)
    (h : gmap addr StateObj) : gmap addr StateObj :=
  map_imap (λ p o,
    Some {| atnSet := atnSet o; stateNumber := stateNumber o;
            transitions := transitions o;
            nextTokenWithinRule := g p;
            decision := decision o |}) h.

(** The memo of the state at [p], [None] when it has none. *)
Definition memoOf (h : gmap addr StateObj) (p : addr) : option IntervalSet :=
  h !! p ≫= nextTokenWithinRule.

(** ** A sample grammar

    Rule [A] (states 0 to 3) calls rule [B] at state 1 and then matches
    token 2; rule [B] (states 4 and 5) is an optional token 1.  The
    state numbered [n] lives at address [100 + n]. *)

Definition sampleState (n : Z) (ts : list Transition) : StateObj :=
  {| atnSet := true; stateNumber := n; transitions := ts;
     nextTokenWithinRule := None; decision := -1 |}.

Definition sampleHeap : gmap addr StateObj :=
  list_to_map
    [ (100%nat, sampleState 0 [OtherTransition (Some 101%nat)]);
      (101%nat, sampleState 1
                  [RuleTransition (Some 104%nat) (Some 102%nat)]);
      (102%nat, sampleState 2 [OtherTransition (Some 103%nat)]);
      (103%nat, sampleState 3 []);
      (104%nat, sampleState 4
                  [OtherTransition (Some 105%nat);
                   OtherTransition (Some 105%nat)]);
      (105%nat, sampleState 5 []) ].

Definition sampleATN : ATN :=
  set_states (NewATN 1 2)
    [Some 100%nat; Some 101%nat; Some 102%nat;
     Some 103%nat; Some 104%nat; Some 105%nat].

Definition sampleWorld : World :=
  {| ATNInvalidAltNumber := 0; atn := sampleATN;
     heap := sampleHeap; lookTrace := [] |}.

(** The token types reachable inside the rule from each state of the
    sample grammar; [-2] is the epsilon marker. *)
Definition sampleClosure (n : Z) : list Z :=
  if decide (n = 0) then [1; 2]
  else if decide (n = 1) then [1; 2]
  else if decide (n = 2) then [2]
  else if decide (n = 4) then [1; -2]
  else [-2].

(** An analyzer for the sample grammar: without a context the end of
    the rule shows as epsilon ([-2]); with a context it shows as the end
    of input ([-1]). *)
Definition sampleLook : Analyzer :=
  λ a h s stop ctx,
    let base : gset Z :=
      match s ≫= (λ p, h !! p) with
      | Some o => list_to_set (sampleClosure (stateNumber o))
      | None => ∅
      end in
    match ctx with
    | None => {| elems := base; readOnly := false |}
    | Some _ =>
        {| elems := if decide (-2 ∈ base)
                    then base ∖ {[ -2 ]} ∪ {[ -1 ]} else base;
           readOnly := false |}
    end.

(** The context of an invocation of [B] from state 1 of [A], itself
    started from the root. *)
Definition sampleContext : RuleContext :=
  Some (mkRuleContext 1 (Some EmptyContext)).

(** ** Induction principles and invariants used in the proofs *)

(** Induction along a context chain, from the top link down. *)
Fixpoint RuleContextObj_chain_ind (P : RuleContextObj → Prop)
    (Htop : ∀ inv, P (mkRuleContext inv None))
    (Hlink : ∀ inv p, P p → P (mkRuleContext inv (Some p)))
    (c : RuleContextObj) : P c :=
  match c with
  | mkRuleContext inv None => Htop inv
  | mkRuleContext inv (Some p) =>
      Hlink inv p (RuleContextObj_chain_ind P Htop Hlink p)
  end.

(** A computation whose panics are Go run-time errors only, never a
    value passed to [panic]. *)
Definition runtimePanicsOnly {A} (m : M A) : Prop :=
  ∀ w msg, (m w).1 ≠ Panicked (PanicMsg msg).

(** [w'] is [w] after some queries: the package variable, the ATN and
    the state objects up to their memo are the same, and each memo is
    either the one of [w] or, where [w] had none, the analyzer's answer
    without a context, marked read-only. *)
Record memoExtends (Look : Analyzer) (w w' : World) : Prop := {
  ext_alt : ATNInvalidAltNumber w' = ATNInvalidAltNumber w;
  ext_atn : atn w' = atn w;
  ext_graph : clearMemo <$> heap w' = clearMemo <$> heap w;
  ext_memo : ∀ p,
    memoOf (heap w') p = memoOf (heap w) p
    ∨ (memoOf (heap w) p = None
       ∧ memoOf (heap w') p =
           Some (setReadOnly
                   (Look (atn w) (clearMemo <$> heap w) (Some p) None None)))
}.

(** A computation that only extends the memos, on every store. *)
Definition extending (Look : Analyzer) {A} (m : M A) : Prop :=
  ∀ w, memoExtends Look w (m w).2.

(** A computation that never writes the package-level variable. *)
Definition keepsAltNumber {A} (m : M A) : Prop :=
  ∀ w, ATNInvalidAltNumber (m w).2 = ATNInvalidAltNumber w.

(** The values of the run of [getExpectedTokens] at the start state of
    rule [B] of the sample grammar (state 4) under [sampleContext]: the
    set computed inside rule [B], the store after computing it, the set
    returned and the store left. *)
Definition sampleStateB : StateObj :=
  sampleState 4
    [OtherTransition (Some 105%nat); OtherTransition (Some 105%nat)].

Definition sampleFollowing : IntervalSet :=
  {| elems := {[ 1; -2 ]}; readOnly := true |}.

Definition sampleWorld1 : World :=
  exec (NextTokens sampleLook (Some 104%nat) None) sampleWorld.

Definition sampleExpected : IntervalSet :=
  {| elems := {[ 1; 2 ]}; readOnly := false |}.

Definition sampleWorld2 : World :=
  exec (getExpectedTokens sampleLook (-2) (-1) 4 sampleContext) sampleWorld.

(** State number [inv] is a call site of the graph: it holds a state
    whose first transition is a rule transition with a follow state. *)
Definition callSite (w : World) (inv : Z) : Prop :=
  ∃ q o t f rest,
    index (states (atn w)) inv = Some (Some q)
    ∧ heap w !! q = Some o
    ∧ transitions o = RuleTransition t (Some f) :: rest
    ∧ is_Some (heap w !! f).

(** A context chain of the graph: linked up to a link without a valid
    invoking state, every recorded invocation being a call site. *)
Fixpoint chainResolves (w : World) (c : RuleContextObj) : Prop :=
  match c with
  | mkRuleContext inv par =>
      match par with
      | None => inv < 0
      | Some p => (0 ≤ inv → callSite w inv) ∧ chainResolves w p
      end
  end.

Definition contextResolves (w : World) (ctx : RuleContext) : Prop :=
  match ctx with
  | None => True
  | Some c => chainResolves w c
  end.

(** A computation whose result does not depend on which memos are
    already filled: run on a store and on one that extends its memos,
    it gives the same result and leaves stores related in the same
    way. *)
Definition memoTransparent (Look : Analyzer) {A} (m : M A) : Prop :=
  ∀ w w', memoExtends Look w w' →
    (m w').1 = (m w).1 ∧ memoExtends Look (m w).2 (m w').2.

(** [c] is a call of the analyzer for the set of state [p] without a
    context. *)
Definition contextFreeCallFor (p : addr) (c : LookCall) : bool :=
  match lookState c, lookCtx c with
  | Some q, None => bool_decide (q = p)
  | _, _ => false
  end.

(** How often the trace of [w] asks for the set of [p] without a
    context. *)
Definition contextFreeCalls (p : addr) (w : World) : nat :=
  length (filter (λ c, contextFreeCallFor p c = true) (lookTrace w)).

(** A query that reaches the analyzer without a context only through
    [NextTokensNoContext]: any query but a direct call of
    [NextTokensInContext] with a [nil] context. *)
Definition memoizedQuery (q : Query) : Prop :=
  match q with
  | QNextTokensInContext _ None => False
  | _ => True
  end.

(** [w'] extends the memos of [w], and for each state the analyzer was
    asked for its context-free set at most once in between, and only if
    the state had no memo and has one now. *)
Record memoCounts (Look : Analyzer) (w w' : World) : Prop := {
  mc_ext : memoExtends Look w w';
  mc_calls : ∀ p,
    contextFreeCalls p w' = contextFreeCalls p w
    ∨ (memoOf (heap w) p = None
       ∧ is_Some (memoOf (heap w') p)
       ∧ contextFreeCalls p w' = S (contextFreeCalls p w))
}.

Definition counting (Look : Analyzer) {A} (m : M A) : Prop :=
  ∀ w, memoCounts Look w (m w).2.

(** Every slot of [states] that holds a state holds one that carries
    the number of the slot. *)
Definition numbered (w : World) : Prop :=
  ∀ n p, index (states (atn w)) n = Some (Some p) →
    ∃ o, heap w !! p = Some o ∧ stateNumber o = n.

(** The fields of the ATN struct that atn.go reads but never writes
    after [NewATN]. *)
Definition tables (a : ATN) :=
  (grammarType a, lexerActions a, maxTokenType a, modeNameToStartState a,
   modeToStartState a, ruleToStartState a, ruleToStopState a,
   ruleToTokenType a).

(** A call on the graph at hand, as opposed to [NewATN], which makes
    another one. *)
Definition onSameGraph (c : Call) : bool :=
  match c with
  | CNewATN _ _ => false
  | _ => true
  end.

(** A computation that leaves the tables of the ATN as they are. *)
Definition keepsTables {A} (m : M A) : Prop :=
  ∀ w, tables (atn (m w).2) = tables (atn w).

(** Every slot of [DecisionToState] that holds a state holds one that
    carries the index of the slot. *)
Definition decisionsIndexed (w : World) : Prop :=
  ∀ i p, index (DecisionToState (atn w)) i = Some (Some p) →
    ∃ o, heap w !! p = Some o ∧ decision o = i.

(** The invoking states recorded along a context chain. *)
Fixpoint invokingStates (c : RuleContextObj) : list Z :=
  match c with
  | mkRuleContext inv par =>
      inv :: match par with
             | None => []
             | Some p => invokingStates p
             end
  end.

(** [p] is a return state of the context: the follow state of one of
    its invoking states. *)
Definition returnState (w : World) (ctx : RuleContext) (p : addr) : Prop :=
  ∃ c inv, ctx = Some c ∧ inv ∈ invokingStates c
    ∧ enclosingFollowState inv w = (Ok (Some p), w).

(** The set computed at state 2 of the sample grammar, the follow state
    of the call of rule [B]. *)
Definition sampleOuter : IntervalSet :=
  {| elems := {[ 2 ]}; readOnly := true |}.

(** A run of queries on the sample grammar. *)
Definition sampleQueries : list Query :=
  [QGetExpectedTokens 4 sampleContext; QNextTokens (Some 104%nat) None;
   QNextTokensInContext (Some 104%nat) (Some EmptyContext);
   QGetExpectedTokens 4 None].

(** A run of calls on the sample graph. *)
Definition sampleCalls : list Call :=
  [CMutation (MAddState None); CQuery (QGetExpectedTokens 4 sampleContext);
   CMutation (MRemoveState (Some 100%nat));
   CMutation (MDefineDecisionState (Some 104%nat))].

(** ** The reference algorithm of the specification

    [getExpectedTokens] as the specification words it, as a function
    without a store: it is given what [nextTokens(state, nil)] answers
    for a state and which follow state the first outgoing transition of
    a state number carries, each [None] where the specification has no
    answer (a fatal condition).  The accumulator is a set of token
    types. *)

(** The answer of the reference algorithm: the fatal invalid state
    number, another fatal condition, the local set returned as it is,
    or the tokens accumulated. *)
Inductive RefAnswer : Type :=
| RefInvalidState
| RefFatal
| RefLocal (following : IntervalSet)
| RefTokens (acc : gset Z).

Section ReferenceAlgorithm.

Variable nextTokensOf : ATNState → option IntervalSet.
Variable followStateAt : Z → option ATNState.
Variable TokenEpsilon TokenEOF : Z.

(** The walk up the context chain from a link: while the link has a
    non-negative invoking state and the last [following] holds epsilon,
    take the follow state of the invoking state, recompute [following],
    add it minus epsilon to the accumulator and go to the parent; a
    link without parent ends the walk. *)
Fixpoint refWalkFrom (c : RuleContextObj) (following : IntervalSet)
    (acc : gset Z) : option (IntervalSet * gset Z) :=
  match c with
  | mkRuleContext inv par =>
      if bool_decide (0 ≤ inv) && Contains following TokenEpsilon then
        match followStateAt inv with
        | None => None
        | Some fs =>
            match nextTokensOf fs with
            | None => None
            | Some following' =>
                let acc' := acc ∪ (elems following' ∖ {[ TokenEpsilon ]}) in
                match par with
                | None => Some (following', acc')
                | Some p => refWalkFrom p following' acc'
                end
            end
        end
      else Some (following, acc)
  end.

Definition refWalk (ctx : RuleContext) (following : IntervalSet)
    (acc : gset Z) : option (IntervalSet * gset Z) :=
  match ctx with
  | None => Some (following, acc)
  | Some c => refWalkFrom c following acc
  end.

Definition refExpected (sts : list ATNState) (stateNumber : Z)
    (ctx : RuleContext) : RefAnswer :=
  if decide (0 ≤ stateNumber < len sts) then
    match sts !! Z.to_nat stateNumber with
    | None => RefFatal
    | Some s =>
        match nextTokensOf s with
        | None => RefFatal
        | Some following =>
            if Contains following TokenEpsilon then
              match refWalk ctx following
                      (elems following ∖ {[ TokenEpsilon ]}) with
              | None => RefFatal
              | Some (last, acc) =>
                  RefTokens (if Contains last TokenEpsilon
                             then acc ∪ {[ TokenEOF ]} else acc)
              end
            else RefLocal following
        end
    end
  else RefInvalidState.

End ReferenceAlgorithm.

(** What [nextTokens(s, nil)] answers on the store [w]. *)
Definition localAnswer (Look : Analyzer) (w : World) (s : ATNState)
    : option IntervalSet :=
  match (NextTokens Look s None w).1 with
  | Ok v => Some v
  | Panicked _ => None
  end.

(** The follow state carried by the first outgoing transition of the
    state numbered [inv] of the graph of [w], when there is one. *)
Definition refFollowState (w : World) (inv : Z) : option ATNState :=
  if decide (0 ≤ inv) then
    match states (atn w) !! Z.to_nat inv with
    | Some (Some p) =>
        match heap w !! p with
        | Some o =>
            match transitions o with
            | RuleTransition _ fs :: _ => Some fs
            | _ => None
            end
        | None => None
        end
    | _ => None
    end
  else None.

(** A result of the code agrees with an answer of the reference: the
    panic with the message of the invalid state number, a panic where
    the reference is fatal otherwise, the local set itself where the
    reference returns it, and otherwise a new set with the tokens of
    the reference, the epsilon marker apart (whether the set still holds
    epsilon is left to [IntervalSet]'s removal). *)
Definition agreesWith (TokenEpsilon : Z) (res : Result IntervalSet)
    (a : RefAnswer) : Prop :=
  match a with
  | RefInvalidState => res = Panicked (PanicMsg "Invalid state number.")
  | RefFatal => ∃ p, res = Panicked p
  | RefLocal following => res = Ok following
  | RefTokens acc =>
      ∃ r, res = Ok r ∧ readOnly r = false
        ∧ ∀ t, t ≠ TokenEpsilon → (t ∈ elems r ↔ t ∈ acc)
  end.

(** [getExpectedTokens] follows the reference algorithm on a state
    number, a context and a store. *)
Definition followsReference (Look : Analyzer) (TokenEpsilon TokenEOF : Z)
    (stateNumber : Z) (ctx : RuleContext) (w : World) : Prop :=
  agreesWith TokenEpsilon
    (getExpectedTokens Look TokenEpsilon TokenEOF stateNumber ctx w).1
    (refExpected (localAnswer Look w) (refFollowState w)
       TokenEpsilon TokenEOF (states (atn w)) stateNumber ctx).

(** The sample graph with states 0 and 4 defined as decisions. *)
Definition sampleDecisionWorld : World :=
  exec (defineAll [Some 100%nat; Some 104%nat]) sampleWorld.

(** The calls of the analyzer made between [w] and [w'] are calls
    without a context at states of the store. *)
Definition asksOnGraph (w w' : World) : Prop :=
  ∃ cs, lookTrace w' = lookTrace w ++ cs
    ∧ Forall (λ c, lookCtx c = None
                 ∧ ∃ q, lookState c = Some q ∧ is_Some (heap w !! q)) cs.

(** * Properties *)

(** ** Indexing and the monad *)

Lemma index_Some_range {A} (l : list A) (i : Z) (x : A) :
  index l i = Some x → 0 ≤ i < len l.
Proof.
  unfold index, len. case_decide; [|done].
  intros Hl%lookup_lt_Some. lia.
Qed.

Lemma index_None_range {A} (l : list A) (i : Z) :
  index l i = None ↔ i < 0 ∨ len l ≤ i.
Proof.
  unfold index, len. case_decide.
  - rewrite lookup_ge_None. lia.
  - split; [lia | done].
Qed.

Lemma index_nat {A} (l : list A) (n : nat) :
  index l (Z.of_nat n) = l !! n.
Proof.
  unfold index. case_decide; [|lia]. by rewrite Nat2Z.id.
Qed.

Lemma bind_Ok {A B} (m : M A) (k : A → M B) w a w' :
  m w = (Ok a, w') → bind m k w = k a w'.
Proof. unfold bind. by intros ->. Qed.

Lemma bind_Panicked {A B} (m : M A) (k : A → M B) w p w' :
  m w = (Panicked p, w') → bind m k w = (Panicked p, w').
Proof. unfold bind. by intros ->. Qed.

Lemma runtimePanicsOnly_ret {A} (a : A) : runtimePanicsOnly (ret a).
Proof. by intros w msg. Qed.

Lemma runtimePanicsOnly_bind {A B} (m : M A) (k : A → M B) :
  runtimePanicsOnly m → (∀ a, runtimePanicsOnly (k a)) →
  runtimePanicsOnly (bind m k).
Proof.
  intros Hm Hk w msg. unfold bind.
  destruct (m w) as [[a|p] w'] eqn:E.
  - apply Hk.
  - specialize (Hm w msg). rewrite E in Hm. simpl in *. congruence.
Qed.

Lemma runtimePanicsOnly_deref s : runtimePanicsOnly (deref s).
Proof.
  intros w msg. unfold deref.
  destruct s as [p|]; [|done]. by destruct (heap w !! p).
Qed.

Lemma runtimePanicsOnly_at_index {A} (l : list A) i :
  runtimePanicsOnly (at_index l i).
Proof. intros w msg. unfold at_index. by destruct (index l i). Qed.

Lemma runtimePanicsOnly_call_set s f : runtimePanicsOnly (call_set s f).
Proof.
  destruct s as [p|]; [|done]. simpl.
  apply runtimePanicsOnly_bind; [apply runtimePanicsOnly_deref|].
  by intros _ w msg.
Qed.

Lemma runtimePanicsOnly_followStateOf rt :
  runtimePanicsOnly (followStateOf rt).
Proof. by destruct rt. Qed.

Section RuntimePanics.

Variable Look : Analyzer.
Variable TokenEpsilon TokenEOF : Z.

Lemma runtimePanicsOnly_NextTokensInContext s ctx :
  runtimePanicsOnly (NextTokensInContext Look s ctx).
Proof. by intros w msg. Qed.

Lemma runtimePanicsOnly_NextTokensNoContext s :
  runtimePanicsOnly (NextTokensNoContext Look s).
Proof.
  apply runtimePanicsOnly_bind; [apply runtimePanicsOnly_deref|].
  intros o. destruct (nextTokenWithinRule o).
  - apply runtimePanicsOnly_ret.
  - apply runtimePanicsOnly_bind;
      [apply runtimePanicsOnly_NextTokensInContext|].
    intros iset. apply runtimePanicsOnly_bind;
      [apply runtimePanicsOnly_call_set|].
    intros _. apply runtimePanicsOnly_ret.
Qed.

Lemma runtimePanicsOnly_NextTokens s ctx :
  runtimePanicsOnly (NextTokens Look s ctx).
Proof.
  destruct ctx.
  - apply runtimePanicsOnly_NextTokensInContext.
  - apply runtimePanicsOnly_NextTokensNoContext.
Qed.

Lemma runtimePanicsOnly_expectedLoopFrom c following expected :
  runtimePanicsOnly
    (expectedLoopFrom Look TokenEpsilon c following expected).
Proof.
  revert following expected.
  induction c as [inv|inv p IH] using RuleContextObj_chain_ind;
    intros following expected; simpl;
    (destruct (bool_decide (0 ≤ inv) && Contains following TokenEpsilon);
     [|apply runtimePanicsOnly_ret]);
    (apply runtimePanicsOnly_bind; [by intros w msg|]; intros w0);
    (apply runtimePanicsOnly_bind;
       [apply runtimePanicsOnly_at_index|]; intros st);
    (apply runtimePanicsOnly_bind;
       [apply runtimePanicsOnly_deref|]; intros o);
    (apply runtimePanicsOnly_bind;
       [apply runtimePanicsOnly_at_index|]; intros rt);
    (apply runtimePanicsOnly_bind;
       [apply runtimePanicsOnly_followStateOf|]; intros fs);
    (apply runtimePanicsOnly_bind;
       [apply (runtimePanicsOnly_NextTokens fs None)|]; intros fl).
  - by intros w msg.
  - apply IH.
Qed.

Lemma runtimePanicsOnly_expectedLoop ctx following expected :
  runtimePanicsOnly (expectedLoop Look TokenEpsilon ctx following expected).
Proof.
  destruct ctx; [apply runtimePanicsOnly_expectedLoopFrom|].
  apply runtimePanicsOnly_ret.
Qed.

End RuntimePanics.

(** ** The state-number check of [getExpectedTokens] *)

Lemma getExpectedTokens_valid (Look : Analyzer) (TokenEpsilon TokenEOF : Z)
    (stateNumber : Z) (ctx : RuleContext) (w : World) :
  ¬ (stateNumber < 0 ∨ len (states (atn w)) ≤ stateNumber) →
  getExpectedTokens Look TokenEpsilon TokenEOF stateNumber ctx w =
    (let* s := at_index (states (atn w)) stateNumber in
     let* following := NextTokens Look s None in
     if negb (Contains following TokenEpsilon) then ret following
     else
       let* fe := expectedLoop Look TokenEpsilon ctx following
           (removeOne (addSet NewIntervalSet following) TokenEpsilon) in
       ret (if Contains fe.1 TokenEpsilon
            then AddOne fe.2 TokenEOF else fe.2)) w.
Proof.
  intros Hr. unfold getExpectedTokens.
  rewrite (bind_Ok get _ w w w eq_refl). by rewrite decide_False.
Qed.

Lemma getExpectedTokens_invalid (Look : Analyzer)
    (TokenEpsilon TokenEOF : Z) (stateNumber : Z) (ctx : RuleContext)
    (w : World) :
  stateNumber < 0 ∨ len (states (atn w)) ≤ stateNumber →
  getExpectedTokens Look TokenEpsilon TokenEOF stateNumber ctx w
    = (Panicked (PanicMsg "Invalid state number."), w).
Proof.
  intros Hr. unfold getExpectedTokens, bind, get. simpl.
  by rewrite decide_True.
Qed.

(** C3: [getExpectedTokens] panics with "Invalid state number." exactly
    when the state number is negative or not below the number of
    states; for such a number it returns no set and leaves the store as
    it was. *)
Theorem getExpectedTokens_invalid_state (Look : Analyzer)
    (TokenEpsilon TokenEOF : Z) (stateNumber : Z) (ctx : RuleContext)
    (w : World) :
  ((getExpectedTokens Look TokenEpsilon TokenEOF stateNumber ctx w).1
     = Panicked (PanicMsg "Invalid state number.")
   ↔ stateNumber < 0 ∨ len (states (atn w)) ≤ stateNumber)
  ∧ (stateNumber < 0 ∨ len (states (atn w)) ≤ stateNumber →
     getExpectedTokens Look TokenEpsilon TokenEOF stateNumber ctx w
       = (Panicked (PanicMsg "Invalid state number."), w)).
Proof.
  pose proof (getExpectedTokens_invalid Look TokenEpsilon TokenEOF
                stateNumber ctx w) as Hbad.
  split; [|exact Hbad].
  split; [|by intros ->%Hbad].
  intros Hp. destruct (decide (stateNumber < 0
                               ∨ len (states (atn w)) ≤ stateNumber))
    as [Hr|Hr]; [done|]. exfalso.
  assert (Hrt : runtimePanicsOnly
    (let* s := at_index (states (atn w)) stateNumber in
     let* following := NextTokens Look s None in
     if negb (Contains following TokenEpsilon) then ret following
     else
       let* fe := expectedLoop Look TokenEpsilon ctx following
           (removeOne (addSet NewIntervalSet following) TokenEpsilon) in
       ret (if Contains fe.1 TokenEpsilon
            then AddOne fe.2 TokenEOF else fe.2))).
  { apply runtimePanicsOnly_bind; [apply runtimePanicsOnly_at_index|].
    intros s. apply runtimePanicsOnly_bind;
      [apply runtimePanicsOnly_NextTokens|].
    intros fl. destruct (negb (Contains fl TokenEpsilon));
      [apply runtimePanicsOnly_ret|].
    apply runtimePanicsOnly_bind; [apply runtimePanicsOnly_expectedLoop|].
    intros fe. apply runtimePanicsOnly_ret. }
  rewrite getExpectedTokens_valid in Hp by done.
  by apply Hrt in Hp.
Qed.

(** ** Queries only extend the memos *)

Lemma clearMemo_alter_memo (h : gmap addr StateObj) (p : addr)
    (v : IntervalSet) :
  clearMemo <$> alter (λ o, SetNextTokenWithinRule o v) p h = clearMemo <$> h.
Proof.
  apply map_eq. intros i. rewrite !lookup_fmap, lookup_alter.
  case_decide as Hi; [|done]. subst i. by destruct (h !! p).
Qed.

Lemma clearMemo_rewriteMemo (g : addr → option IntervalSet)
    (h : gmap addr StateObj) :
  clearMemo <$> rewriteMemo g h = clearMemo <$> h.
Proof.
  apply map_eq. intros i. unfold rewriteMemo.
  rewrite !lookup_fmap, map_lookup_imap. by destruct (h !! i).
Qed.

Lemma graph_lookup (h h' : gmap addr StateObj) (p : addr) :
  clearMemo <$> h' = clearMemo <$> h →
  clearMemo <$> (h' !! p) = clearMemo <$> (h !! p).
Proof. intros H. by rewrite <- !lookup_fmap, H. Qed.

Section Extending.

Variable Look : Analyzer.
Variable TokenEpsilon TokenEOF : Z.

Lemma memoExtends_refl w : memoExtends Look w w.
Proof. split; auto. Qed.

Lemma memoExtends_trans w1 w2 w3 :
  memoExtends Look w1 w2 → memoExtends Look w2 w3 →
  memoExtends Look w1 w3.
Proof.
  intros [Ha1 Hb1 Hc1 Hd1] [Ha2 Hb2 Hc2 Hd2]. split.
  - congruence.
  - congruence.
  - congruence.
  - intros p. destruct (Hd2 p) as [E2|[N2 E2]], (Hd1 p) as [E1|[N1 E1]].
    + left. congruence.
    + right. split; congruence.
    + right. split; [congruence|]. rewrite E2, Hb1, Hc1. done.
    + congruence.
Qed.

Lemma memoExtends_log w c : memoExtends Look w (log_look w c).
Proof. split; auto. Qed.

(** The value [NextTokensNoContext] returns, read off the store. *)
Lemma NextTokensNoContext_result s w :
  (NextTokensNoContext Look s w).1 =
    match s with
    | None => Panicked NilDereference
    | Some p =>
        match heap w !! p with
        | None => Panicked NilDereference
        | Some o =>
            match nextTokenWithinRule o with
            | Some v => Ok v
            | None =>
                Ok (setReadOnly
                      (Look (atn w) (clearMemo <$> heap w) (Some p)
                         None None))
            end
        end
    end.
Proof.
  unfold NextTokensNoContext, bind, deref.
  destruct s as [p|]; [|done].
  destruct (heap w !! p) as [o|] eqn:Hp; [|done].
  destruct (nextTokenWithinRule o) as [v|]; [done|].
  simpl. unfold bind, deref. simpl. by rewrite Hp.
Qed.

(** A call that finds the memo returns it and changes nothing. *)
Lemma NextTokensNoContext_hit p v w :
  memoOf (heap w) p = Some v →
  NextTokensNoContext Look (Some p) w = (Ok v, w).
Proof.
  unfold memoOf, NextTokensNoContext, bind, deref.
  destruct (heap w !! p) as [o|]; [|done]. simpl. by intros ->.
Qed.

(** A call that finds no memo asks the analyzer once and stores the
    answer, marked read-only, on the state. *)
Lemma NextTokensNoContext_miss p o w :
  heap w !! p = Some o → nextTokenWithinRule o = None →
  NextTokensNoContext Look (Some p) w =
    (Ok (setReadOnly (Look (atn w) (clearMemo <$> heap w) (Some p)
                        None None)),
     set_heap (log_look w (mkLookCall (Some p) None))
       (alter (λ o, SetNextTokenWithinRule o
                 (setReadOnly (Look (atn w) (clearMemo <$> heap w)
                                 (Some p) None None)))
          p (heap w))).
Proof.
  intros Hp Hn. unfold NextTokensNoContext, bind, deref.
  rewrite Hp, Hn. simpl. unfold bind, deref. simpl. by rewrite Hp.
Qed.

Lemma NextTokensInContext_extending s ctx :
  extending Look (NextTokensInContext Look s ctx).
Proof. intros w. apply memoExtends_log. Qed.

Lemma NextTokensNoContext_extending s :
  extending Look (NextTokensNoContext Look s).
Proof.
  intros w. destruct s as [p|]; [|apply memoExtends_refl].
  destruct (heap w !! p) as [o|] eqn:Hp.
  2:{ unfold NextTokensNoContext, bind, deref. rewrite Hp.
      apply memoExtends_refl. }
  destruct (nextTokenWithinRule o) as [v|] eqn:Hm.
  { rewrite (NextTokensNoContext_hit p v);
      [apply memoExtends_refl|]. unfold memoOf. by rewrite Hp. }
  rewrite (NextTokensNoContext_miss p o w Hp Hm). split; simpl; auto.
  - apply clearMemo_alter_memo.
  - intros q. unfold memoOf. rewrite lookup_alter.
    case_decide as Hq; [|by left]. subst q. right.
    rewrite Hp. simpl. by rewrite Hm.
Qed.

Lemma NextTokens_extending s ctx : extending Look (NextTokens Look s ctx).
Proof.
  destruct ctx.
  - apply NextTokensInContext_extending.
  - apply NextTokensNoContext_extending.
Qed.

Lemma extending_ret {A} (a : A) : extending Look (ret a).
Proof. intros w. apply memoExtends_refl. Qed.

Lemma extending_throw {A} p : extending Look (@throw A p).
Proof. intros w. apply memoExtends_refl. Qed.

Lemma extending_get : extending Look get.
Proof. intros w. apply memoExtends_refl. Qed.

Lemma extending_deref s : extending Look (deref s).
Proof.
  intros w. unfold deref. destruct s as [p|]; [|apply memoExtends_refl].
  destruct (heap w !! p); apply memoExtends_refl.
Qed.

Lemma extending_at_index {A} (l : list A) i : extending Look (at_index l i).
Proof.
  intros w. unfold at_index. destruct (index l i); apply memoExtends_refl.
Qed.

Lemma extending_followStateOf rt : extending Look (followStateOf rt).
Proof. intros w. destruct rt; apply memoExtends_refl. Qed.

Lemma extending_bind {A B} (m : M A) (k : A → M B) :
  extending Look m → (∀ a, extending Look (k a)) →
  extending Look (bind m k).
Proof.
  intros Hm Hk w. unfold bind. specialize (Hm w).
  destruct (m w) as [[a|p] w']; simpl in *; [|done].
  eapply memoExtends_trans; [exact Hm|apply Hk].
Qed.

Lemma expectedLoopFrom_extending c following expected :
  extending Look (expectedLoopFrom Look TokenEpsilon c following expected).
Proof.
  revert following expected.
  induction c as [inv|inv p IH] using RuleContextObj_chain_ind;
    intros following expected; simpl;
    (destruct (bool_decide (0 ≤ inv) && Contains following TokenEpsilon);
     [|apply extending_ret]);
    (apply extending_bind; [apply extending_get|]; intros w0);
    (apply extending_bind; [apply extending_at_index|]; intros st);
    (apply extending_bind; [apply extending_deref|]; intros o);
    (apply extending_bind; [apply extending_at_index|]; intros rt);
    (apply extending_bind; [apply extending_followStateOf|]; intros fs);
    (apply extending_bind;
       [apply (NextTokens_extending fs None)|]; intros fl).
  - apply extending_throw.
  - apply IH.
Qed.

Lemma expectedLoop_extending ctx following expected :
  extending Look (expectedLoop Look TokenEpsilon ctx following expected).
Proof.
  destruct ctx; [apply expectedLoopFrom_extending|apply extending_ret].
Qed.

Lemma getExpectedTokens_extending stateNumber ctx :
  extending Look
    (getExpectedTokens Look TokenEpsilon TokenEOF stateNumber ctx).
Proof.
  apply extending_bind; [apply extending_get|]. intros w0.
  case_decide; [apply extending_throw|].
  apply extending_bind; [apply extending_at_index|]. intros s.
  apply extending_bind; [apply NextTokens_extending|]. intros fl.
  destruct (negb (Contains fl TokenEpsilon)); [apply extending_ret|].
  apply extending_bind; [apply expectedLoop_extending|]. intros fe.
  apply extending_ret.
Qed.

Lemma runQuery_extends q w :
  memoExtends Look w (runQuery Look TokenEpsilon TokenEOF q w).
Proof.
  destruct q; simpl; unfold exec.
  - apply NextTokensInContext_extending.
  - apply NextTokensNoContext_extending.
  - apply NextTokens_extending.
  - apply getExpectedTokens_extending.
  - apply extending_bind; [apply extending_get|]. intros w0.
    case_decide; [apply extending_ret|apply extending_at_index].
  - apply extending_bind; [apply extending_get|]. intros w0.
    apply extending_at_index.
  - apply extending_bind; [apply extending_get|]. intros w0.
    apply extending_at_index.
  - apply extending_bind; [apply extending_get|]. intros w0.
    apply extending_ret.
Qed.

Lemma runQueries_extends qs w :
  memoExtends Look w (runQueries Look TokenEpsilon TokenEOF qs w).
Proof.
  revert w. induction qs as [|q qs IH]; intros w; simpl.
  - apply memoExtends_refl.
  - eapply memoExtends_trans; [apply runQuery_extends|apply IH].
Qed.

(** A memo, once present, is what every later store holds. *)
Lemma memoExtends_keeps w w' p v :
  memoExtends Look w w' → memoOf (heap w) p = Some v →
  memoOf (heap w') p = Some v.
Proof.
  intros H Hv. destruct (ext_memo _ _ _ H p) as [E|[N _]]; congruence.
Qed.

(** The answer of [NextTokens] is the same on a store that extends
    the memos of another. *)
Lemma NextTokens_result_stable s ctx w w' :
  memoExtends Look w w' →
  (NextTokens Look s ctx w').1 = (NextTokens Look s ctx w).1.
Proof.
  intros H. destruct ctx as [c|]; simpl.
  { by rewrite (ext_atn _ _ _ H), (ext_graph _ _ _ H). }
  rewrite !NextTokensNoContext_result. destruct s as [p|]; [|done].
  pose proof (graph_lookup _ _ p (ext_graph _ _ _ H)) as Hg.
  pose proof (ext_memo _ _ _ H p) as Hm. unfold memoOf in Hm.
  rewrite (ext_atn _ _ _ H), (ext_graph _ _ _ H).
  destruct (heap w !! p) as [o|], (heap w' !! p) as [o'|];
    simpl in *; try done.
  destruct (nextTokenWithinRule o) as [v|],
           (nextTokenWithinRule o') as [v'|];
    destruct Hm as [Hm|[Hm1 Hm2]]; congruence.
Qed.

End Extending.

(** ** The dispatch of [NextTokens] *)

(** The three ways a call of [NextTokensNoContext] ends: a panic on a
    [nil] state, a hit that leaves the store as it is, or a miss that
    asks the analyzer without a context and stores the answer. *)
Lemma NextTokensNoContext_cases (Look : Analyzer) (s : ATNState) (w : World) :
  NextTokensNoContext Look s w = (Panicked NilDereference, w)
  ∨ (∃ v, NextTokensNoContext Look s w = (Ok v, w))
  ∨ (∃ p o v w', s = Some p ∧ heap w !! p = Some o
       ∧ nextTokenWithinRule o = None
       ∧ NextTokensNoContext Look s w = (Ok v, w')
       ∧ lookTrace w' = lookTrace w ++ [mkLookCall s None]
       ∧ memoOf (heap w') p = Some v).
Proof.
  destruct s as [p|]; [|by left].
  destruct (heap w !! p) as [o|] eqn:Hp.
  2:{ left. unfold NextTokensNoContext, bind, deref. by rewrite Hp. }
  destruct (nextTokenWithinRule o) as [v|] eqn:Hm.
  - right. left. exists v. apply NextTokensNoContext_hit.
    unfold memoOf. by rewrite Hp.
  - right. right. eexists p, o, _, _. split; [done|]. split; [done|].
    split; [done|].
    split; [exact (NextTokensNoContext_miss Look p o w Hp Hm)|].
    split; [done|]. unfold memoOf. simpl.
    by rewrite lookup_alter_eq, Hp.
Qed.

(** C5: [NextTokens] is the call of [NextTokensNoContext] exactly when
    the context is [nil], the empty marker of a context reference, and
    the call of [NextTokensInContext] with that context exactly when it
    is not: on every store the two calls differ in what they return or
    leave, so the call made can be told from the outcome. *)
Theorem NextTokens_dispatch (Look : Analyzer) (s : ATNState)
    (ctx : RuleContext) (w : World) :
  (NextTokens Look s ctx w = NextTokensNoContext Look s w ↔ ctx = None)
  ∧ (NextTokens Look s ctx w = NextTokensInContext Look s ctx w
     ↔ ctx ≠ None).
Proof.
  assert (Hlen : ∀ (l : list LookCall) c, l ++ [c] ≠ l).
  { intros l c E. apply (f_equal length) in E.
    rewrite length_app in E. simpl in E. lia. }
  destruct ctx as [c|].
  - split; (split; [|done]); [|by intros _].
    intros H. exfalso. simpl in H. unfold NextTokensInContext in H.
    destruct (NextTokensNoContext_cases Look s w)
      as [E|[[v E]|(p & o & v & w' & -> & _ & _ & E & Ht & _)]];
      rewrite E in H; [done| |].
    + apply (f_equal (λ x, lookTrace x.2)) in H. simpl in H.
      by apply Hlen in H.
    + apply (f_equal (λ x, lookTrace x.2)) in H. simpl in H.
      rewrite Ht in H. by apply app_inj_tail in H as [_ [=]].
  - split; [done|]. split; [|done].
    intros H. exfalso.
    change (NextTokens Look s None w)
      with (NextTokensNoContext Look s w) in H.
    unfold NextTokensInContext in H.
    destruct (NextTokensNoContext_cases Look s w)
      as [E|[[v E]|(p & o & v & w' & -> & Hp & Hm & E & _ & Hv)]];
      rewrite E in H; [done| |].
    + apply (f_equal (λ x, lookTrace x.2)) in H. simpl in H.
      symmetry in H. by apply Hlen in H.
    + apply (f_equal (λ x, memoOf (heap x.2) p)) in H. simpl in H.
      rewrite Hv in H. unfold memoOf in H. rewrite Hp in H. simpl in H.
      congruence.
Qed.

(** ** Memoization of [NextTokensNoContext] *)

(** C4: on a state without a memo, [NextTokensNoContext] returns what
    [NextTokensInContext] computes for a [nil] context, marked
    read-only, and stores it on the state, with one call to the
    analyzer; whatever queries run afterwards, a later call for that
    state returns the stored set and leaves the store, and so the trace
    of analyzer calls, as it was. *)
Theorem NextTokensNoContext_memoized (Look : Analyzer)
    (TokenEpsilon TokenEOF : Z) (p : addr) (o : StateObj) (w : World) :
  heap w !! p = Some o →
  nextTokenWithinRule o = None →
  let r := Look (atn w) (clearMemo <$> heap w) (Some p) None None in
  let w1 := exec (NextTokensNoContext Look (Some p)) w in
  (NextTokensInContext Look (Some p) None w).1 = Ok r
  ∧ (NextTokensNoContext Look (Some p) w).1 = Ok (setReadOnly r)
  ∧ readOnly (setReadOnly r) = true
  ∧ heap w1 !! p = Some (SetNextTokenWithinRule o (setReadOnly r))
  ∧ lookTrace w1 = lookTrace w ++ [mkLookCall (Some p) None]
  ∧ ∀ qs : list Query,
      let w2 := runQueries Look TokenEpsilon TokenEOF qs w1 in
      NextTokensNoContext Look (Some p) w2 = (Ok (setReadOnly r), w2).
Proof.
  intros Hp Hn r w1. unfold exec in w1.
  pose proof (NextTokensNoContext_miss Look p o w Hp Hn) as Hmiss.
  fold r in Hmiss.
  assert (Hst : heap w1 !! p
                = Some (SetNextTokenWithinRule o (setReadOnly r))).
  { unfold w1. rewrite Hmiss. simpl. by rewrite lookup_alter_eq, Hp. }
  repeat split.
  - by rewrite Hmiss.
  - exact Hst.
  - unfold w1. by rewrite Hmiss.
  - intros qs w2. apply NextTokensNoContext_hit.
    eapply memoExtends_keeps; [apply runQueries_extends|].
    unfold memoOf. by rewrite Hst.
Qed.

(** ** Determinism of [NextTokens] *)

(** C6: on a store reached from [w] by any sequence of queries,
    [NextTokens] gives for a state and a context the result it gives on
    [w]: the same set, flag included, or the same panic; so a second
    call, whatever queries ran between the two, repeats the result of
    the first. *)
Theorem NextTokens_deterministic (Look : Analyzer)
    (TokenEpsilon TokenEOF : Z) (s : ATNState) (ctx : RuleContext)
    (qs : list Query) (w : World) :
  (NextTokens Look s ctx (runQueries Look TokenEpsilon TokenEOF qs w)).1
    = (NextTokens Look s ctx w).1
  ∧ (NextTokens Look s ctx
       (runQueries Look TokenEpsilon TokenEOF qs
          (exec (NextTokens Look s ctx) w))).1
    = (NextTokens Look s ctx w).1.
Proof.
  split.
  - apply NextTokens_result_stable, runQueries_extends.
  - apply NextTokens_result_stable.
    eapply memoExtends_trans; [apply NextTokens_extending|].
    apply runQueries_extends.
Qed.

(** ** The memo is private to [NextTokensNoContext] *)

(** C10: with a non-nil context, [NextTokensInContext] and [NextTokens]
    leave every state object, and so every memo, as it was, and their
    answer is the same whatever the memos hold. *)
Theorem context_queries_leave_memo (Look : Analyzer) (s : ATNState)
    (c : RuleContextObj) (g : addr → option IntervalSet) (w : World) :
  heap (exec (NextTokensInContext Look s (Some c)) w) = heap w
  ∧ heap (exec (NextTokens Look s (Some c)) w) = heap w
  ∧ (NextTokensInContext Look s (Some c)
       (set_heap w (rewriteMemo g (heap w)))).1
      = (NextTokensInContext Look s (Some c) w).1
  ∧ (NextTokens Look s (Some c) (set_heap w (rewriteMemo g (heap w)))).1
      = (NextTokens Look s (Some c) w).1.
Proof.
  repeat split; simpl; by rewrite clearMemo_rewriteMemo.
Qed.

(** ** State numbers *)

Lemma len_app {A} (l k : list A) : len (l ++ k) = len l + len k.
Proof. unfold len. rewrite length_app. lia. Qed.

Lemma len_snoc_pred {A} (l : list A) (x : A) : len (l ++ [x]) - 1 = len l.
Proof. rewrite len_app. unfold len. simpl. lia. Qed.

Lemma addState_nil w :
  addState None w =
    (Ok tt, set_atn w (set_states (atn w) (states (atn w) ++ [None]))).
Proof. reflexivity. Qed.

Lemma addState_dangling p w :
  heap w !! p = None → addState (Some p) w = (Panicked NilDereference, w).
Proof.
  intros Hp. unfold addState, bind, get, call_set, deref. simpl.
  unfold bind. by rewrite Hp.
Qed.

Lemma addState_stamps p o w :
  heap w !! p = Some o →
  addState (Some p) w =
    (Ok tt,
     set_atn
       (set_heap w
          (alter (λ o, SetStateNumber o (len (states (atn w)))) p
             (alter SetATN p (heap w))))
       (set_states (atn w) (states (atn w) ++ [Some p]))).
Proof.
  intros Hp. unfold addState, bind, get, call_set, deref. simpl.
  unfold bind. rewrite Hp. simpl. by rewrite lookup_alter_eq, Hp.
Qed.

Lemma removeState_clears p o w :
  heap w !! p = Some o → 0 ≤ stateNumber o < len (states (atn w)) →
  removeState (Some p) w =
    (Ok tt,
     set_atn w
       (set_states (atn w)
          (<[Z.to_nat (stateNumber o) := None]> (states (atn w))))).
Proof.
  intros Hp Hk. unfold removeState, bind, get, deref. rewrite Hp.
  by rewrite decide_True.
Qed.

Lemma removeState_states s w :
  len (states (atn (exec (removeState s) w))) = len (states (atn w)).
Proof.
  unfold exec, removeState, bind, get, deref.
  destruct s as [p|]; [|done]. destruct (heap w !! p) as [o|]; [|done].
  case_decide; [|done]. simpl. unfold len. by rewrite length_insert.
Qed.

Lemma defineDecisionState_states s w :
  states (atn (exec (defineDecisionState s) w)) = states (atn w).
Proof.
  unfold exec, defineDecisionState, bind, get, modify, call_set. simpl.
  destruct s as [p|]; [|done]. unfold bind, deref. simpl.
  destruct (heap w !! p) as [o|] eqn:Hp; [|done]. simpl.
  by rewrite lookup_alter_eq, Hp.
Qed.

Lemma runMutation_states m w :
  len (states (atn w)) ≤ len (states (atn (runMutation m w))).
Proof.
  destruct m as [s|s|s]; simpl.
  - destruct s as [p|].
    + destruct (heap w !! p) as [o|] eqn:Hp; unfold exec.
      * rewrite (addState_stamps p o w Hp). simpl. rewrite len_app.
        unfold len. simpl. lia.
      * rewrite (addState_dangling p w Hp). simpl. lia.
    + unfold exec. rewrite addState_nil. simpl. rewrite len_app.
      unfold len. simpl. lia.
  - rewrite removeState_states. lia.
  - rewrite defineDecisionState_states. lia.
Qed.

Lemma assignedNumbers_grow ms :
  ∀ w, Forall (λ n, len (states (atn w)) ≤ n) (assignedNumbers ms w)
       ∧ StronglySorted Z.lt (assignedNumbers ms w).
Proof.
  induction ms as [|m ms IH]; intros w; simpl.
  { split; constructor. }
  pose proof (runMutation_states m w) as Hle.
  destruct (IH (runMutation m w)) as [Hall Hsort].
  assert (Hweak : Forall (λ n, len (states (atn w)) ≤ n)
                    (assignedNumbers ms (runMutation m w))).
  { eapply Forall_impl; [exact Hall|]. simpl. intros; lia. }
  destruct m as [[p|]|s|s]; try (split; assumption).
  destruct (heap w !! p) as [o|] eqn:Hp.
  2:{ rewrite (addState_dangling p w Hp). split; assumption. }
  simpl in *. unfold exec in *.
  rewrite (addState_stamps p o w Hp) in *. simpl in *.
  rewrite !lookup_alter_eq, Hp. simpl. split.
  - constructor; [lia|exact Hweak].
  - constructor; [exact Hsort|].
    eapply Forall_impl; [exact Hall|]. simpl. intros n.
    rewrite len_app. unfold len. simpl. lia.
Qed.

(** C7: [addState] stamps a non-nil state with the number of states
    held before the call and appends it, and appends [nil] without
    touching any state; [removeState] sets the slot numbered by its
    state to [nil], leaving the length, every other slot and the number
    of every state as they were, and no later [addState] hands out that
    number: the numbers handed out by any sequence of graph changes are
    at least the number of states held at its start and strictly
    increase. *)
Theorem state_numbers_stable :
  (∀ p o w, heap w !! p = Some o →
     let w' := exec (addState (Some p)) w in
     (addState (Some p) w).1 = Ok tt
     ∧ states (atn w') = states (atn w) ++ [Some p]
     ∧ heap w' !! p
         = Some (SetStateNumber (SetATN o) (len (states (atn w))))
     ∧ (∀ q, q ≠ p → heap w' !! q = heap w !! q))
  ∧ (∀ w,
     let w' := exec (addState None) w in
     (addState None w).1 = Ok tt
     ∧ states (atn w') = states (atn w) ++ [None]
     ∧ heap w' = heap w)
  ∧ (∀ p o w, heap w !! p = Some o →
     0 ≤ stateNumber o < len (states (atn w)) →
     let k := stateNumber o in
     let w' := exec (removeState (Some p)) w in
     (removeState (Some p) w).1 = Ok tt
     ∧ heap w' = heap w
     ∧ len (states (atn w')) = len (states (atn w))
     ∧ index (states (atn w')) k = Some None
     ∧ (∀ j, j ≠ k → index (states (atn w')) j = index (states (atn w)) j)
     ∧ (∀ ms, Forall (λ n, k < n) (assignedNumbers ms w')))
  ∧ (∀ ms w,
     Forall (λ n, len (states (atn w)) ≤ n) (assignedNumbers ms w)
     ∧ StronglySorted Z.lt (assignedNumbers ms w)).
Proof.
  split; [|split; [|split]].
  - intros p o w Hp w'. unfold w', exec.
    rewrite (addState_stamps p o w Hp). simpl. repeat split.
    + by rewrite !lookup_alter_eq, Hp.
    + intros q Hq. by rewrite !lookup_alter_ne.
  - intros w w'. unfold w', exec. rewrite addState_nil. done.
  - intros p o w Hp Hk k w'. unfold w', exec.
    rewrite (removeState_clears p o w Hp Hk). simpl.
    assert (Hlen : len (<[Z.to_nat k := None]> (states (atn w)))
                   = len (states (atn w))).
    { unfold len. by rewrite length_insert. }
    repeat split.
    + exact Hlen.
    + unfold index. rewrite decide_True by (unfold k; lia).
      apply list_lookup_insert_eq. unfold len, k in *. lia.
    + intros j Hj. unfold index. case_decide; [|done].
      apply list_lookup_insert_ne. unfold k in *. lia.
    + intros ms.
      destruct (assignedNumbers_grow ms
        (set_atn w (set_states (atn w)
           (<[Z.to_nat k := None]> (states (atn w)))))) as [Hall _].
      eapply Forall_impl; [exact Hall|]. simpl. intros n.
      rewrite Hlen. unfold k. lia.
  - apply assignedNumbers_grow.
Qed.

(** ** Decision indices *)

Lemma defineDecisionState_stamps p o w :
  heap w !! p = Some o →
  defineDecisionState (Some p) w =
    (Ok (len (DecisionToState (atn w))),
     set_heap
       (set_atn w
          (set_DecisionToState (atn w)
             (DecisionToState (atn w) ++ [Some p])))
       (alter (λ o, setDecision o (len (DecisionToState (atn w)))) p
          (heap w))).
Proof.
  intros Hp.
  unfold defineDecisionState, bind, get, modify, call_set, deref. simpl.
  unfold bind. simpl. rewrite Hp. simpl. rewrite lookup_alter_eq, Hp.
  simpl. by rewrite len_snoc_pred.
Qed.

Lemma getDecisionState_empty i w :
  DecisionToState (atn w) = [] → getDecisionState i w = (Ok None, w).
Proof.
  intros He. unfold getDecisionState, bind, get. rewrite He. done.
Qed.

Lemma getDecisionState_lookup (i : nat) s w :
  DecisionToState (atn w) !! i = Some s →
  getDecisionState (Z.of_nat i) w = (Ok s, w).
Proof.
  intros Hi. unfold getDecisionState, bind, get.
  rewrite decide_False.
  - unfold at_index. by rewrite index_nat, Hi.
  - apply lookup_lt_Some in Hi. unfold len. lia.
Qed.

(** Defining a list of allocated decision states appends them in
    order and returns consecutive indices. *)
Lemma defineAll_appends ps :
  ∀ w, Forall (λ p, is_Some (heap w !! p)) ps →
    (defineAll (Some <$> ps) w).1
      = Ok (seqZ (len (DecisionToState (atn w))) (len ps))
    ∧ DecisionToState (atn (exec (defineAll (Some <$> ps)) w))
      = DecisionToState (atn w) ++ (Some <$> ps).
Proof.
  induction ps as [|p ps IH]; intros w Hall.
  { simpl. unfold exec. simpl. by rewrite app_nil_r. }
  apply Forall_cons in Hall as [[o Hp] Hall].
  rewrite fmap_cons.
  change (defineAll (Some p :: (Some <$> ps)))
    with (let* d := defineDecisionState (Some p) in
          let* ds := defineAll (Some <$> ps) in ret (d :: ds)).
  unfold exec.
  rewrite (bind_Ok _ _ _ _ _ (defineDecisionState_stamps p o w Hp)).
  set (w1 := set_heap _ _).
  destruct (IH w1) as [Hr Hd].
  { eapply Forall_impl; [exact Hall|]. simpl. intros q Hq.
    by apply lookup_alter_is_Some. }
  unfold exec in Hd. unfold bind.
  destruct (defineAll (Some <$> ps) w1) as [[ds|e] w2]; simpl in *;
    [|done].
  injection Hr as ->. split.
  - rewrite len_app.
    rewrite (seqZ_cons (len (DecisionToState (atn w))))
      by (unfold len; simpl; lia).
    do 3 f_equal; unfold len; simpl; lia.
  - rewrite Hd. by rewrite <- app_assoc.
Qed.

(** C8: [defineDecisionState] appends the state to [DecisionToState],
    stamps it with the index of its slot and returns that index, under
    which [getDecisionState] finds it; after defining a list of decision
    states on a graph without decisions the indices returned are 0, 1,
    ... and [getDecisionState i] is the i-th state defined; on a graph
    without decisions [getDecisionState] returns [nil]. *)
Theorem decision_indices_round_trip :
  (∀ p o w, heap w !! p = Some o →
     let n := len (DecisionToState (atn w)) in
     let w' := exec (defineDecisionState (Some p)) w in
     (defineDecisionState (Some p) w).1 = Ok n
     ∧ DecisionToState (atn w') = DecisionToState (atn w) ++ [Some p]
     ∧ heap w' !! p = Some (setDecision o n)
     ∧ getDecisionState n w' = (Ok (Some p), w'))
  ∧ (∀ ps w, Forall (λ p, is_Some (heap w !! p)) ps →
     DecisionToState (atn w) = [] →
     let w' := exec (defineAll (Some <$> ps)) w in
     (defineAll (Some <$> ps) w).1 = Ok (seqZ 0 (len ps))
     ∧ ∀ (i : nat) p, ps !! i = Some p →
         getDecisionState (Z.of_nat i) w' = (Ok (Some p), w'))
  ∧ (∀ i w, DecisionToState (atn w) = [] →
     getDecisionState i w = (Ok None, w)).
Proof.
  split; [|split].
  - intros p o w Hp n w'. unfold w', exec.
    rewrite (defineDecisionState_stamps p o w Hp). simpl. repeat split.
    + by rewrite lookup_alter_eq, Hp.
    + apply getDecisionState_lookup. simpl.
      by apply list_lookup_middle.
  - intros ps w Hall He w'.
    destruct (defineAll_appends ps w Hall) as [Hr Hd].
    rewrite He in Hr, Hd. split; [exact Hr|].
    intros i p Hi. apply getDecisionState_lookup.
    unfold w'. rewrite Hd. simpl. by rewrite list_lookup_fmap, Hi.
  - apply getDecisionState_empty.
Qed.

(** ** The package-level variable *)

Lemma keepsAltNumber_bind {A B} (m : M A) (k : A → M B) :
  keepsAltNumber m → (∀ a, keepsAltNumber (k a)) →
  keepsAltNumber (bind m k).
Proof.
  intros Hm Hk w. unfold bind. specialize (Hm w).
  destruct (m w) as [[a|p] w']; simpl in *; [|done].
  by rewrite Hk.
Qed.

Lemma keepsAltNumber_deref s : keepsAltNumber (deref s).
Proof.
  intros w. unfold deref. destruct s as [p|]; [|done].
  by destruct (heap w !! p).
Qed.

Lemma keepsAltNumber_call_set s f : keepsAltNumber (call_set s f).
Proof.
  destruct s as [p|]; [|done]. simpl.
  apply keepsAltNumber_bind; [apply keepsAltNumber_deref|]. by intros _ w.
Qed.

Lemma keepsAltNumber_addState s : keepsAltNumber (addState s).
Proof.
  apply keepsAltNumber_bind; [done|]. intros w0.
  apply keepsAltNumber_bind; [|by intros _ w].
  destruct s; [|done].
  apply keepsAltNumber_bind; intros; apply keepsAltNumber_call_set.
Qed.

Lemma keepsAltNumber_removeState s : keepsAltNumber (removeState s).
Proof.
  apply keepsAltNumber_bind; [apply keepsAltNumber_deref|]. intros o.
  apply keepsAltNumber_bind; [done|]. intros w0. by case_decide.
Qed.

Lemma keepsAltNumber_defineDecisionState s :
  keepsAltNumber (defineDecisionState s).
Proof.
  apply keepsAltNumber_bind; [done|]. intros _.
  apply keepsAltNumber_bind; [done|]. intros w0.
  apply keepsAltNumber_bind; [apply keepsAltNumber_call_set|]. intros _.
  apply keepsAltNumber_bind; [apply keepsAltNumber_deref|]. by intros o w.
Qed.

(** C9: no call into the file writes [ATNInvalidAltNumber]: after any
    sequence of graph constructions, graph changes and queries it holds
    the value it held before, which is 0 from program start. *)
Theorem ATNInvalidAltNumber_constant (Look : Analyzer)
    (TokenEpsilon TokenEOF : Z) (cs : list Call) :
  (∀ w, ATNInvalidAltNumber (runCalls Look TokenEpsilon TokenEOF cs w)
        = ATNInvalidAltNumber w)
  ∧ (∀ g t h, ATNInvalidAltNumber
       (runCalls Look TokenEpsilon TokenEOF cs (initialWorld g t h)) = 0).
Proof.
  assert (H : ∀ w,
    ATNInvalidAltNumber (runCalls Look TokenEpsilon TokenEOF cs w)
      = ATNInvalidAltNumber w).
  { induction cs as [|c cs IH]; intros w; [done|].
    change (runCalls Look TokenEpsilon TokenEOF (c :: cs) w)
      with (runCalls Look TokenEpsilon TokenEOF cs
              (runCall Look TokenEpsilon TokenEOF c w)).
    rewrite IH.
    destruct c as [g t|q|[s|s|s]]; simpl.
    - done.
    - apply (ext_alt _ _ _ (runQuery_extends Look _ _ q w)).
    - apply keepsAltNumber_addState.
    - apply keepsAltNumber_removeState.
    - apply keepsAltNumber_defineDecisionState. }
  split; [exact H|]. intros g t h. by rewrite H.
Qed.

(** ** One turn of the loop of [getExpectedTokens] *)

Section Refinement.

Variable Look : Analyzer.
Variable TokenEpsilon TokenEOF : Z.

(** One turn of the loop: the guard, the follow state of the
    invoking state, its [following] set, the update of [expected],
    and the step to the parent. *)
Lemma expectedLoopFrom_unfold inv par following expected w :
  expectedLoopFrom Look TokenEpsilon (mkRuleContext inv par)
      following expected w =
    (if bool_decide (0 ≤ inv) && Contains following TokenEpsilon then
       let* fs := enclosingFollowState inv in
       let* fl := NextTokens Look fs None in
       match par with
       | None => throw TypeAssertion
       | Some p =>
           expectedLoopFrom Look TokenEpsilon p fl
             (removeOne (addSet expected fl) TokenEpsilon)
       end
     else ret (following, expected)) w.
Proof.
  simpl.
  destruct (bool_decide (0 ≤ inv) && Contains following TokenEpsilon);
    [|done].
  unfold enclosingFollowState, bind, get.
  destruct (at_index (states (atn w)) inv w) as [[st|e] w1]; [|done].
  destruct (deref st w1) as [[o|e] w2]; [|done].
  destruct (at_index (transitions o) 0 w2) as [[rt|e] w3]; [|done].
  by destruct (followStateOf rt w3) as [[fs|e] w4].
Qed.

End Refinement.

(** ** Epsilon propagation *)

Lemma Contains_true (i : IntervalSet) (v : Z) :
  Contains i v = true ↔ v ∈ elems i.
Proof. unfold Contains. apply bool_decide_eq_true. Qed.

Lemma enclosingFollowState_pure inv w r w' :
  enclosingFollowState inv w = (r, w') → w' = w.
Proof.
  unfold enclosingFollowState, bind, get, at_index, deref, followStateOf.
  destruct (index (states (atn w)) inv) as [[p|]|]; simpl;
    try (by intros [= _ <-]).
  destruct (heap w !! p) as [o|]; simpl; try (by intros [= _ <-]).
  destruct (index (transitions o) 0) as [[t f|t|]|]; simpl;
    by intros [= _ <-].
Qed.

Section Propagation.

Variable Look : Analyzer.
Variable TokenEpsilon TokenEOF : Z.




(** What [getExpectedTokens] returns once the local set holds
    epsilon: the loop's [expected], with the end of input added when
    the loop's last [following] holds epsilon. *)
Lemma getExpectedTokens_epsilon stateNumber ctx w s following w1 :
  index (states (atn w)) stateNumber = Some s →
  NextTokens Look s None w = (Ok following, w1) →
  Contains following TokenEpsilon = true →
  getExpectedTokens Look TokenEpsilon TokenEOF stateNumber ctx w =
    (let* fe := expectedLoop Look TokenEpsilon ctx following
         (removeOne (addSet NewIntervalSet following) TokenEpsilon) in
     ret (if Contains fe.1 TokenEpsilon
          then AddOne fe.2 TokenEOF else fe.2)) w1.
Proof.
  intros Hs Hn Hf. apply index_Some_range in Hs as Hr.
  rewrite getExpectedTokens_valid by lia.
  unfold at_index. rewrite Hs.
  rewrite (bind_Ok (ret s) _ w s w eq_refl), (bind_Ok _ _ _ _ _ Hn).
  by rewrite Hf.
Qed.

End Propagation.


(** ** [getExpectedTokens] returns on the chains of the graph *)

Section Returns.

Variable Look : Analyzer.
Variable TokenEpsilon TokenEOF : Z.

Lemma memoExtends_allocated w w' p :
  memoExtends Look w w' → is_Some (heap w !! p) → is_Some (heap w' !! p).
Proof.
  intros H [o Ho].
  pose proof (graph_lookup _ _ p (ext_graph _ _ _ H)) as Hg.
  rewrite Ho in Hg. destruct (heap w' !! p); [by eexists|done].
Qed.

Lemma memoExtends_callSite w w' inv :
  memoExtends Look w w' → callSite w inv → callSite w' inv.
Proof.
  intros H (q & o & t & f & rest & Hi & Hq & Ht & Hf).
  pose proof (graph_lookup _ _ q (ext_graph _ _ _ H)) as Hg.
  rewrite Hq in Hg.
  destruct (heap w' !! q) as [o'|] eqn:Hq'; [|done].
  injection Hg as _ _ Htr _.
  exists q, o', t, f, rest. rewrite (ext_atn _ _ _ H).
  split; [exact Hi|]. split; [exact Hq'|]. split.
  - by rewrite Htr.
  - by eapply memoExtends_allocated.
Qed.

Lemma memoExtends_chainResolves w w' c :
  memoExtends Look w w' → chainResolves w c → chainResolves w' c.
Proof.
  intros H.
  induction c as [inv|inv p IH] using RuleContextObj_chain_ind; simpl;
    [done|].
  intros [Hc Hp]. split; [|by apply IH].
  intros Hinv. by eapply memoExtends_callSite; [|apply Hc].
Qed.

Lemma NextTokensNoContext_returns p w :
  is_Some (heap w !! p) →
  ∃ r, NextTokensNoContext Look (Some p) w
       = (Ok r, exec (NextTokensNoContext Look (Some p)) w).
Proof.
  intros [o Ho]. unfold exec.
  pose proof (NextTokensNoContext_result Look (Some p) w) as Hr.
  cbv beta iota in Hr. rewrite Ho in Hr.
  destruct (NextTokensNoContext Look (Some p) w) as [res w1].
  simpl in *. subst res. destruct (nextTokenWithinRule o); by eexists.
Qed.

Lemma enclosingFollowState_callSite w inv :
  callSite w inv →
  ∃ f, enclosingFollowState inv w = (Ok (Some f), w)
       ∧ is_Some (heap w !! f).
Proof.
  intros (q & o & t & f & rest & Hi & Hq & Ht & Hf). exists f.
  split; [|exact Hf].
  unfold enclosingFollowState, bind, get, at_index, deref. simpl.
  rewrite Hi. simpl. rewrite Hq, Ht. done.
Qed.

Lemma asksOnGraph_refl w : asksOnGraph w w.
Proof. exists []. split; [by rewrite app_nil_r|constructor]. Qed.

Lemma asksOnGraph_trans w1 w2 w3 :
  memoExtends Look w1 w2 →
  asksOnGraph w1 w2 → asksOnGraph w2 w3 → asksOnGraph w1 w3.
Proof.
  intros Hext (cs1 & Ht1 & Hc1) (cs2 & Ht2 & Hc2). exists (cs1 ++ cs2).
  split; [by rewrite Ht2, Ht1, app_assoc|].
  apply Forall_app. split; [exact Hc1|].
  eapply Forall_impl; [exact Hc2|]. simpl.
  intros c (Hn & q & Hq & [o Ho]). split; [exact Hn|].
  exists q. split; [exact Hq|].
  pose proof (graph_lookup _ _ q (ext_graph _ _ _ Hext)) as Hg.
  rewrite Ho in Hg. destruct (heap w1 !! q); [by eexists|done].
Qed.

(** [NextTokensNoContext] at a state of the store asks the analyzer at
    most once, for that state and without a context. *)
Lemma NextTokensNoContext_asks p w :
  is_Some (heap w !! p) →
  asksOnGraph w (exec (NextTokensNoContext Look (Some p)) w).
Proof.
  intros Hp. unfold exec.
  destruct (NextTokensNoContext_cases Look (Some p) w)
    as [E|[[v E]|(q & o & v & w' & [= <-] & _ & _ & E & Ht & _)]];
    rewrite E; simpl; try apply asksOnGraph_refl.
  exists [mkLookCall (Some p) None]. split; [exact Ht|].
  constructor; [|constructor]. split; [done|]. by exists p.
Qed.

Lemma expectedLoopFrom_returns c :
  ∀ following expected w, chainResolves w c →
    ∃ fl ex w',
      expectedLoopFrom Look TokenEpsilon c following expected w
        = (Ok (fl, ex), w')
      ∧ asksOnGraph w w'.
Proof.
  induction c as [inv|inv p IH] using RuleContextObj_chain_ind;
    intros following expected w Hc; rewrite expectedLoopFrom_unfold;
    simpl in Hc.
  - rewrite bool_decide_eq_false_2 by lia. eexists _, _, _.
    split; [reflexivity|apply asksOnGraph_refl].
  - destruct Hc as [Hsite Hp].
    destruct (bool_decide (0 ≤ inv)) eqn:Hinv; simpl.
    2:{ eexists _, _, _. split; [reflexivity|apply asksOnGraph_refl]. }
    destruct (Contains following TokenEpsilon).
    2:{ eexists _, _, _. split; [reflexivity|apply asksOnGraph_refl]. }
    apply bool_decide_eq_true in Hinv.
    destruct (enclosingFollowState_callSite w inv (Hsite Hinv))
      as (f & Hfs & Hf).
    rewrite (bind_Ok _ _ _ _ _ Hfs).
    destruct (NextTokensNoContext_returns f w Hf) as [fl Hfl].
    change (NextTokens Look (Some f) None)
      with (NextTokensNoContext Look (Some f)).
    rewrite (bind_Ok _ _ _ _ _ Hfl).
    pose proof (NextTokensNoContext_extending Look (Some f) w) as Hext.
    destruct (IH fl (removeOne (addSet expected fl) TokenEpsilon) _
                (memoExtends_chainResolves _ _ _ Hext Hp))
      as (fl' & ex & w' & Hl & Ha).
    exists fl', ex, w'. split; [exact Hl|].
    eapply asksOnGraph_trans; [exact Hext| |exact Ha].
    by apply NextTokensNoContext_asks.
Qed.

(** X16: on a state of the graph and a context chain of the graph,
    that is, a chain linked up to a link without a valid invoking state
    whose recorded invocations are call sites, no step of
    [getExpectedTokens] itself panics: every index is in range, every
    state read is there and every type assertion holds.  The calls it
    makes to the analyzer are calls without a context at states of the
    store; the analyzer, which is outside atn.go, is taken to answer
    them, and with their answers [getExpectedTokens] returns a set. *)
Lemma getExpectedTokens_returns stateNumber ctx w p :
  index (states (atn w)) stateNumber = Some (Some p) →
  is_Some (heap w !! p) →
  contextResolves w ctx →
  ∃ r w',
    getExpectedTokens Look TokenEpsilon TokenEOF stateNumber ctx w
      = (Ok r, w')
    ∧ asksOnGraph w w'.
Proof.
  intros Hs Hp Hctx. apply index_Some_range in Hs as Hr.
  rewrite getExpectedTokens_valid by lia.
  unfold at_index. rewrite Hs.
  rewrite (bind_Ok (ret (Some p)) _ w (Some p) w eq_refl).
  destruct (NextTokensNoContext_returns p w Hp) as [following Hfl].
  change (NextTokens Look (Some p) None)
    with (NextTokensNoContext Look (Some p)).
  rewrite (bind_Ok _ _ _ _ _ Hfl).
  pose proof (NextTokensNoContext_extending Look (Some p) w) as Hext.
  pose proof (NextTokensNoContext_asks p w Hp) as Hask.
  set (w1 := exec _ w) in *.
  destruct (negb (Contains following TokenEpsilon)).
  { eexists _, _. split; [reflexivity|exact Hask]. }
  assert (∃ fl ex w2,
    expectedLoop Look TokenEpsilon ctx following
      (removeOne (addSet NewIntervalSet following) TokenEpsilon) w1
      = (Ok (fl, ex), w2) ∧ asksOnGraph w1 w2)
    as (fl & ex & w2 & Hl & Ha).
  { destruct ctx as [c|]; simpl.
    2:{ eexists _, _, _. split; [reflexivity|apply asksOnGraph_refl]. }
    apply expectedLoopFrom_returns.
    eapply memoExtends_chainResolves; [|exact Hctx]. exact Hext. }
  rewrite (bind_Ok _ _ _ _ _ Hl). eexists _, _.
  split; [reflexivity|]. by eapply asksOnGraph_trans.
Qed.

End Returns.

(** ** The sample grammar *)

(** At the start of rule [B] with no caller, the optional token or the
    end of input is expected. *)
Example sample_expected_at_root :
  (getExpectedTokens sampleLook (-2) (-1) 4 None sampleWorld).1
    = Ok {| elems := {[ 1; -1 ]}; readOnly := false |}.
Proof. vm_compute. reflexivity. Qed.

(** Called from state 1 of rule [A], the token that follows the call
    is expected instead of the end of input. *)
Example sample_expected_in_context :
  getExpectedTokens sampleLook (-2) (-1) 4 sampleContext sampleWorld
    = (Ok sampleExpected, sampleWorld2).
Proof. vm_compute. reflexivity. Qed.

(** A state without epsilon in its local set: that set, which is the
    memo of the state, is returned as it is. *)
Example sample_expected_local :
  (getExpectedTokens sampleLook (-2) (-1) 2 sampleContext sampleWorld).1
    = Ok {| elems := {[ 2 ]}; readOnly := true |}.
Proof. vm_compute. reflexivity. Qed.

Example sample_invalid_state_numbers :
  (getExpectedTokens sampleLook (-2) (-1) (-1) None sampleWorld).1
    = Panicked (PanicMsg "Invalid state number.")
  ∧ (getExpectedTokens sampleLook (-2) (-1) 6 None sampleWorld).1
    = Panicked (PanicMsg "Invalid state number.").
Proof. split; vm_compute; reflexivity. Qed.

(** A link that records an invocation but has no parent is outside the
    chains the constructor of contexts builds; the type assertion on
    its [nil] parent panics after the link has been processed. *)
Example sample_unlinked_chain :
  (getExpectedTokens sampleLook (-2) (-1) 4
     (Some (mkRuleContext 1 None)) sampleWorld).1
    = Panicked TypeAssertion.
Proof. vm_compute. reflexivity. Qed.

(** Removing state 2 leaves six slots, the third one [nil]; the next
    state added gets number 6, also when it is the removed one. *)
Example sample_remove_then_add :
  let w1 := exec (removeState (Some 102%nat)) sampleWorld in
  states (atn w1)
    = [Some 100%nat; Some 101%nat; None;
       Some 103%nat; Some 104%nat; Some 105%nat]
  ∧ assignedNumbers
      [MAddState (Some 102%nat); MRemoveState (Some 100%nat);
       MAddState None; MAddState (Some 100%nat)] w1
    = [6; 8].
Proof. split; vm_compute; reflexivity. Qed.

(** Defining states 0 and 4 as decisions on the sample graph. *)
Example sample_decisions :
  let w1 := exec (defineAll [Some 100%nat; Some 104%nat]) sampleWorld in
  (defineAll [Some 100%nat; Some 104%nat] sampleWorld).1 = Ok [0; 1]
  ∧ (getDecisionState 1 w1).1 = Ok (Some 104%nat)
  ∧ (getDecisionState 7 sampleWorld).1 = Ok None
  ∧ (getDecisionState 7 w1).1 = Panicked IndexOutOfRange.
Proof. repeat split; vm_compute; reflexivity. Qed.

(** The context of the sample run is a chain of the sample graph. *)
Example sample_context_resolves :
  contextResolves sampleWorld sampleContext.
Proof.
  simpl. split; [|lia]. intros _.
  exists 101%nat, (sampleState 1
                     [RuleTransition (Some 104%nat) (Some 102%nat)]),
    (Some 104%nat), 102%nat, []. repeat split. by eexists.
Qed.


(** C4 (witness): the start state of rule [B] of the sample grammar,
    which has no memo yet. *)
Lemma NextTokensNoContext_memoized_witness :
  heap sampleWorld !! 104%nat = Some sampleStateB
  ∧ nextTokenWithinRule sampleStateB = None
  ∧ (NextTokensNoContext sampleLook (Some 104%nat) sampleWorld).1
      = Ok (setReadOnly
              (sampleLook (atn sampleWorld) (clearMemo <$> heap sampleWorld)
                 (Some 104%nat) None None))
  ∧ ∀ qs : list Query,
      NextTokensNoContext sampleLook (Some 104%nat)
        (runQueries sampleLook (-2) (-1) qs sampleWorld1)
      = (Ok (setReadOnly
               (sampleLook (atn sampleWorld) (clearMemo <$> heap sampleWorld)
                  (Some 104%nat) None None)),
         runQueries sampleLook (-2) (-1) qs sampleWorld1).
Proof.
  assert (H1 : heap sampleWorld !! 104%nat = Some sampleStateB)
    by reflexivity.
  assert (H2 : nextTokenWithinRule sampleStateB = None) by reflexivity.
  destruct (NextTokensNoContext_memoized sampleLook (-2) (-1) 104%nat
              sampleStateB sampleWorld H1 H2)
    as (_ & Hr & _ & _ & _ & Hlater).
  split; [exact H1|]. split; [exact H2|]. split; [exact Hr|exact Hlater].
Defined.

(** ** The memos are transparent for [getExpectedTokens] *)

Section Transparent.

Variable Look : Analyzer.
Variable TokenEpsilon TokenEOF : Z.

Lemma memoTransparent_ret {A} (a : A) : memoTransparent Look (ret a).
Proof. by intros w w' H. Qed.

Lemma memoTransparent_throw {A} p : memoTransparent Look (@throw A p).
Proof. by intros w w' H. Qed.

Lemma memoTransparent_bind {A B} (m : M A) (k : A → M B) :
  memoTransparent Look m → (∀ a, memoTransparent Look (k a)) →
  memoTransparent Look (bind m k).
Proof.
  intros Hm Hk w w' H. unfold bind. destruct (Hm w w' H) as [Hr Hw].
  destruct (m w) as [[a|p] w1], (m w') as [[a'|p'] w1']; simpl in *;
    try done.
  - injection Hr as ->. by apply Hk.
  - by injection Hr as ->.
Qed.

Lemma memoTransparent_at_index {A} (l : list A) i :
  memoTransparent Look (at_index l i).
Proof. intros w w' H. unfold at_index. by destruct (index l i). Qed.

Lemma memoTransparent_enclosingFollowState inv :
  memoTransparent Look (enclosingFollowState inv).
Proof.
  intros w w' H.
  assert (Hw : ∀ v, (enclosingFollowState inv v).2 = v).
  { intros v. destruct (enclosingFollowState inv v) as [r v'] eqn:E.
    by apply enclosingFollowState_pure in E. }
  rewrite !Hw. split; [|exact H].
  unfold enclosingFollowState, bind, get, at_index, deref.
  rewrite (ext_atn _ _ _ H).
  destruct (index (states (atn w)) inv) as [[q|]|]; simpl; try done.
  pose proof (graph_lookup _ _ q (ext_graph _ _ _ H)) as Hg.
  destruct (heap w !! q) as [o|], (heap w' !! q) as [o'|]; simpl in *;
    try done.
  injection Hg as _ _ Htr _. rewrite Htr.
  destruct (index (transitions o) 0) as [[t f|t|]|]; done.
Qed.

Lemma memoExtends_log_both w w' c c' :
  memoExtends Look w w' → memoExtends Look (log_look w c) (log_look w' c').
Proof. intros [Ha Hb Hc Hd]. by split. Qed.

Lemma memoTransparent_NextTokens s ctx :
  memoTransparent Look (NextTokens Look s ctx).
Proof.
  intros w w' H. split; [by apply NextTokens_result_stable|].
  destruct ctx as [c|]; [by apply memoExtends_log_both|].
  change (NextTokens Look s None) with (NextTokensNoContext Look s).
  destruct s as [p|]; [|exact H].
  pose proof (graph_lookup _ _ p (ext_graph _ _ _ H)) as Hg.
  destruct (heap w !! p) as [o|] eqn:Hp, (heap w' !! p) as [o'|] eqn:Hp';
    simpl in Hg; try done.
  2:{ unfold NextTokensNoContext, bind, deref. by rewrite Hp, Hp'. }
  pose proof (ext_memo _ _ _ H p) as Hm. unfold memoOf in Hm.
  rewrite Hp, Hp' in Hm. simpl in Hm.
  destruct (nextTokenWithinRule o) as [v|] eqn:Hn.
  { rewrite (NextTokensNoContext_hit Look p v w)
      by (unfold memoOf; by rewrite Hp).
    rewrite (NextTokensNoContext_hit Look p v w'); [exact H|].
    unfold memoOf. rewrite Hp'. simpl.
    destruct Hm as [Hm|[Hm _]]; congruence. }
  rewrite (NextTokensNoContext_miss Look p o w Hp Hn).
  destruct (nextTokenWithinRule o') as [v'|] eqn:Hn'.
  - destruct Hm as [Hm|[_ Hm]]; [done|]. injection Hm as ->.
    rewrite (NextTokensNoContext_hit Look p _ w')
      by (unfold memoOf; by rewrite Hp').
    destruct H as [Ha Hb Hc Hd]. split; simpl; auto.
    + by rewrite clearMemo_alter_memo.
    + intros q. rewrite clearMemo_alter_memo. unfold memoOf in *.
      rewrite lookup_alter.
      case_decide as Hq; [|apply Hd]. subst q. left.
      rewrite Hp, Hp'. simpl. by rewrite Hn'.
  - rewrite (NextTokensNoContext_miss Look p o' w' Hp' Hn').
    destruct H as [Ha Hb Hc Hd]. split; simpl; auto.
    + by rewrite !clearMemo_alter_memo.
    + intros q. rewrite clearMemo_alter_memo. unfold memoOf in *.
      rewrite !lookup_alter.
      case_decide as Hq; [|apply Hd]. subst q. left.
      rewrite Hp, Hp'. simpl. by rewrite Hb, Hc.
Qed.

Lemma memoTransparent_expectedLoopFrom c :
  ∀ following expected,
    memoTransparent Look
      (expectedLoopFrom Look TokenEpsilon c following expected).
Proof.
  induction c as [inv|inv p IH] using RuleContextObj_chain_ind;
    intros following expected w w' H;
    rewrite !expectedLoopFrom_unfold;
    (destruct (bool_decide (0 ≤ inv) && Contains following TokenEpsilon);
     [|by apply memoTransparent_ret]);
    revert w w' H;
    (apply memoTransparent_bind;
       [apply memoTransparent_enclosingFollowState|]; intros fs);
    (apply memoTransparent_bind;
       [apply memoTransparent_NextTokens|]; intros fl).
  - apply memoTransparent_throw.
  - apply IH.
Qed.

Lemma memoTransparent_getExpectedTokens stateNumber ctx :
  memoTransparent Look
    (getExpectedTokens Look TokenEpsilon TokenEOF stateNumber ctx).
Proof.
  intros w w' H.
  destruct (decide (stateNumber < 0 ∨ len (states (atn w)) ≤ stateNumber))
    as [Hr|Hr].
  { rewrite (getExpectedTokens_invalid _ _ _ _ _ w Hr).
    rewrite <- (ext_atn _ _ _ H) in Hr.
    by rewrite (getExpectedTokens_invalid _ _ _ _ _ w' Hr). }
  rewrite (getExpectedTokens_valid _ _ _ _ _ w Hr).
  rewrite <- (ext_atn _ _ _ H) in Hr.
  rewrite (getExpectedTokens_valid _ _ _ _ _ w' Hr).
  rewrite (ext_atn _ _ _ H).
  match goal with
  | |- (?F w').1 = (?F w).1 ∧ _ =>
      enough (memoTransparent Look F) as Ht by exact (Ht w w' H)
  end.
  apply memoTransparent_bind; [apply memoTransparent_at_index|].
  intros s. apply memoTransparent_bind; [apply memoTransparent_NextTokens|].
  intros fl. destruct (negb (Contains fl TokenEpsilon));
    [apply memoTransparent_ret|].
  apply memoTransparent_bind; [|intros fe; apply memoTransparent_ret].
  destruct ctx as [c|]; [apply memoTransparent_expectedLoopFrom|].
  apply memoTransparent_ret.
Qed.

End Transparent.

(** X1: the answer of [getExpectedTokens] does not depend on the
    queries that ran before it: on a store reached from [w] by any
    sequence of queries it returns the set, or raises the panic, it
    returns or raises on [w]. *)
Theorem getExpectedTokens_deterministic (Look : Analyzer)
    (TokenEpsilon TokenEOF : Z) (stateNumber : Z) (ctx : RuleContext)
    (qs : list Query) (w : World) :
  (getExpectedTokens Look TokenEpsilon TokenEOF stateNumber ctx
     (runQueries Look TokenEpsilon TokenEOF qs w)).1
    = (getExpectedTokens Look TokenEpsilon TokenEOF stateNumber ctx w).1.
Proof.
  apply memoTransparent_getExpectedTokens, runQueries_extends.
Qed.

(** ** What [getExpectedTokens] returns *)

Section Returned.

Variable Look : Analyzer.
Variable TokenEpsilon TokenEOF : Z.

(** The loop keeps [expected] free of epsilon, and alterable. *)
Lemma expectedLoopFrom_no_epsilon c :
  ∀ following expected w fl ex w',
    expectedLoopFrom Look TokenEpsilon c following expected w
      = (Ok (fl, ex), w') →
    (TokenEpsilon ∉ elems expected) →
    (TokenEpsilon ∉ elems ex) ∧ readOnly ex = readOnly expected.
Proof.
  induction c as [inv|inv p IH] using RuleContextObj_chain_ind;
    intros following expected w fl ex w' H Heps;
    rewrite expectedLoopFrom_unfold in H;
    (destruct (bool_decide (0 ≤ inv) && Contains following TokenEpsilon);
     [|by injection H as <- <- <-]);
    unfold bind in H;
    (destruct (enclosingFollowState inv w) as [[fs|e] w1]; [|done]);
    (destruct (NextTokens Look fs None w1) as [[outer|e] w2]; [|done]).
  - done.
  - apply IH in H; [exact H|]. simpl. set_solver.
Qed.

Lemma expectedLoop_no_epsilon ctx following expected w fl ex w' :
  expectedLoop Look TokenEpsilon ctx following expected w
    = (Ok (fl, ex), w') →
  (TokenEpsilon ∉ elems expected) →
  (TokenEpsilon ∉ elems ex) ∧ readOnly ex = readOnly expected.
Proof.
  destruct ctx as [c|]; simpl.
  - apply expectedLoopFrom_no_epsilon.
  - by intros [= <- <- <-].
Qed.

(** The two ways [getExpectedTokens] returns: with the local set as it
    is, or with the set built by the loop. *)
Lemma getExpectedTokens_Ok_inv stateNumber ctx w r w' :
  getExpectedTokens Look TokenEpsilon TokenEOF stateNumber ctx w
    = (Ok r, w') →
  ∃ s, index (states (atn w)) stateNumber = Some s
    ∧ ((NextTokens Look s None w = (Ok r, w')
        ∧ Contains r TokenEpsilon = false)
       ∨ (∃ following w1 fl ex,
            NextTokens Look s None w = (Ok following, w1)
            ∧ Contains following TokenEpsilon = true
            ∧ expectedLoop Look TokenEpsilon ctx following
                (removeOne (addSet NewIntervalSet following) TokenEpsilon)
                w1 = (Ok (fl, ex), w')
            ∧ r = (if Contains fl TokenEpsilon
                   then AddOne ex TokenEOF else ex))).
Proof.
  intros H.
  destruct (decide (stateNumber < 0 ∨ len (states (atn w)) ≤ stateNumber))
    as [Hr|Hr].
  { by rewrite (getExpectedTokens_invalid _ _ _ _ _ w Hr) in H. }
  rewrite (getExpectedTokens_valid _ _ _ _ _ w Hr) in H.
  unfold at_index in H.
  destruct (index (states (atn w)) stateNumber) as [s|] eqn:Hs; [|done].
  exists s. split; [done|].
  rewrite (bind_Ok (ret s) _ w s w eq_refl) in H.
  destruct (NextTokens Look s None w) as [[following|e] w1] eqn:Hn.
  2:{ by rewrite (bind_Panicked _ _ _ _ _ Hn) in H. }
  rewrite (bind_Ok _ _ _ _ _ Hn) in H.
  destruct (Contains following TokenEpsilon) eqn:Hf; simpl in H.
  2:{ injection H as <- <-. by left. }
  right.
  destruct (expectedLoop Look TokenEpsilon ctx following
              (removeOne (addSet NewIntervalSet following) TokenEpsilon) w1)
    as [[[fl ex]|e] w2] eqn:Hl.
  2:{ by rewrite (bind_Panicked _ _ _ _ _ Hl) in H. }
  rewrite (bind_Ok _ _ _ _ _ Hl) in H. injection H as <- <-.
  by exists following, w1, fl, ex.
Qed.

End Returned.

(** X3: a set returned by [getExpectedTokens] is either the memo of the
    state itself, returned as it is stored and without consulting the
    context, or a new set that is not read-only. *)
Theorem getExpectedTokens_memo_or_new (Look : Analyzer)
    (TokenEpsilon TokenEOF : Z) (stateNumber : Z) (ctx : RuleContext)
    (w : World) (r : IntervalSet) (w' : World) :
  getExpectedTokens Look TokenEpsilon TokenEOF stateNumber ctx w
    = (Ok r, w') →
  (∃ p, index (states (atn w)) stateNumber = Some (Some p)
        ∧ memoOf (heap w') p = Some r
        ∧ NextTokensNoContext Look (Some p) w = (Ok r, w'))
  ∨ readOnly r = false.
Proof.
  intros H.
  apply getExpectedTokens_Ok_inv in H
    as (s & Hs & [[Hn _]|(following & w1 & fl & ex & _ & _ & Hl & ->)]).
  - left. destruct s as [p|]; [|done]. exists p.
    split; [exact Hs|]. split; [|exact Hn].
    change (NextTokens Look (Some p) None)
      with (NextTokensNoContext Look (Some p)) in Hn.
    unfold memoOf.
    destruct (heap w !! p) as [o|] eqn:Hp.
    2:{ unfold NextTokensNoContext, bind, deref in Hn.
        by rewrite Hp in Hn. }
    destruct (nextTokenWithinRule o) as [v|] eqn:Hm.
    + rewrite (NextTokensNoContext_hit Look p v w) in Hn
        by (unfold memoOf; by rewrite Hp).
      injection Hn as <- <-. rewrite Hp. simpl. done.
    + rewrite (NextTokensNoContext_miss Look p o w Hp Hm) in Hn.
      injection Hn as <- <-. simpl. by rewrite lookup_alter_eq, Hp.
  - right.
    apply expectedLoop_no_epsilon in Hl as [_ Hro]; [|simpl; set_solver].
    by destruct (Contains fl TokenEpsilon).
Qed.

(** ** What queries leave of the graph, and how often they ask the
    analyzer *)

(** X4: queries never change the graph: after any sequence of queries
    the ATN struct is the same and every state object is the same up to
    its memo; a memo that was present is kept, and a memo that appears
    is read-only and is the analyzer's answer for that state without a
    context. *)
Theorem queries_keep_graph (Look : Analyzer) (TokenEpsilon TokenEOF : Z)
    (qs : list Query) (w : World) :
  let w' := runQueries Look TokenEpsilon TokenEOF qs w in
  atn w' = atn w
  ∧ (∀ p, clearMemo <$> (heap w' !! p) = clearMemo <$> (heap w !! p))
  ∧ (∀ p v, memoOf (heap w) p = Some v → memoOf (heap w') p = Some v)
  ∧ (∀ p v, memoOf (heap w') p = Some v →
       memoOf (heap w) p = Some v
       ∨ (readOnly v = true
          ∧ v = setReadOnly
                  (Look (atn w) (clearMemo <$> heap w) (Some p) None None))).
Proof.
  intros w'.
  pose proof (runQueries_extends Look TokenEpsilon TokenEOF qs w) as H.
  fold w' in H. split; [apply (ext_atn _ _ _ H)|]. split; [|split].
  - intros p. apply graph_lookup, (ext_graph _ _ _ H).
  - intros p v. by apply (memoExtends_keeps Look).
  - intros p v Hv. destruct (ext_memo _ _ _ H p) as [E|[_ E]].
    + left. congruence.
    + right. rewrite Hv in E. by injection E as ->.
Qed.

Section Counting.

Variable Look : Analyzer.
Variable TokenEpsilon TokenEOF : Z.

Lemma memoCounts_refl w : memoCounts Look w w.
Proof. split; [apply memoExtends_refl|]. by left. Qed.

Lemma memoCounts_trans w1 w2 w3 :
  memoCounts Look w1 w2 → memoCounts Look w2 w3 → memoCounts Look w1 w3.
Proof.
  intros [He1 Hc1] [He2 Hc2].
  split; [by eapply memoExtends_trans|]. intros p.
  destruct (Hc1 p) as [E1|(N1 & [v Hv] & E1)],
           (Hc2 p) as [E2|(N2 & S2 & E2)].
  - left. congruence.
  - right. split; [|split; [exact S2|congruence]].
    destruct (ext_memo _ _ _ He1 p) as [E|[E _]]; congruence.
  - right. split; [exact N1|]. split; [|congruence].
    exists v. by eapply memoExtends_keeps.
  - congruence.
Qed.

Lemma contextFreeCalls_log p w c :
  contextFreeCalls p (log_look w c)
    = (contextFreeCalls p w
       + if contextFreeCallFor p c then 1 else 0)%nat.
Proof.
  unfold contextFreeCalls. simpl. rewrite filter_app, length_app.
  f_equal. rewrite filter_cons, filter_nil.
  by destruct (contextFreeCallFor p c).
Qed.

Lemma counting_ret {A} (a : A) : counting Look (ret a).
Proof. intros w. apply memoCounts_refl. Qed.

Lemma counting_throw {A} p : counting Look (@throw A p).
Proof. intros w. apply memoCounts_refl. Qed.

Lemma counting_get : counting Look get.
Proof. intros w. apply memoCounts_refl. Qed.

Lemma counting_at_index {A} (l : list A) i : counting Look (at_index l i).
Proof.
  intros w. unfold at_index. destruct (index l i); apply memoCounts_refl.
Qed.

Lemma counting_bind {A B} (m : M A) (k : A → M B) :
  counting Look m → (∀ a, counting Look (k a)) → counting Look (bind m k).
Proof.
  intros Hm Hk w. unfold bind. specialize (Hm w).
  destruct (m w) as [[a|p] w']; simpl in *; [|done].
  eapply memoCounts_trans; [exact Hm|apply Hk].
Qed.

Lemma counting_enclosingFollowState inv :
  counting Look (enclosingFollowState inv).
Proof.
  intros w. destruct (enclosingFollowState inv w) as [r w'] eqn:E.
  apply enclosingFollowState_pure in E as ->. apply memoCounts_refl.
Qed.

Lemma counting_NextTokensInContext s c :
  counting Look (NextTokensInContext Look s (Some c)).
Proof.
  intros w. split; [apply memoExtends_log|]. intros p. left.
  simpl. rewrite contextFreeCalls_log. unfold contextFreeCallFor. simpl.
  destruct s; lia.
Qed.

Lemma counting_NextTokensNoContext s :
  counting Look (NextTokensNoContext Look s).
Proof.
  intros w. split; [apply NextTokensNoContext_extending|].
  destruct s as [p|]; [|by left].
  destruct (heap w !! p) as [o|] eqn:Hp.
  2:{ unfold NextTokensNoContext, bind, deref. rewrite Hp. by left. }
  destruct (nextTokenWithinRule o) as [v|] eqn:Hm.
  { rewrite (NextTokensNoContext_hit Look p v w)
      by (unfold memoOf; by rewrite Hp). by left. }
  rewrite (NextTokensNoContext_miss Look p o w Hp Hm). simpl. intros q.
  change (contextFreeCalls q (set_heap ?v ?h))
    with (contextFreeCalls q v).
  rewrite contextFreeCalls_log. unfold contextFreeCallFor. simpl.
  case_bool_decide as Hq; [|left; lia]. subst q. right.
  unfold memoOf. simpl. rewrite Hp, lookup_alter_eq, Hp. simpl.
  split; [done|]. split; [by eexists|lia].
Qed.

Lemma counting_expectedLoopFrom c :
  ∀ following expected,
    counting Look (expectedLoopFrom Look TokenEpsilon c following expected).
Proof.
  induction c as [inv|inv p IH] using RuleContextObj_chain_ind;
    intros following expected w; rewrite expectedLoopFrom_unfold;
    (destruct (bool_decide (0 ≤ inv) && Contains following TokenEpsilon);
     [|by apply counting_ret]);
    revert w;
    (apply counting_bind; [apply counting_enclosingFollowState|];
     intros fs);
    (apply counting_bind;
       [apply (counting_NextTokensNoContext fs)|]; intros fl).
  - apply counting_throw.
  - apply IH.
Qed.

Lemma counting_getExpectedTokens stateNumber ctx :
  counting Look
    (getExpectedTokens Look TokenEpsilon TokenEOF stateNumber ctx).
Proof.
  apply counting_bind; [apply counting_get|]. intros w0.
  case_decide; [apply counting_throw|].
  apply counting_bind; [apply counting_at_index|]. intros s.
  apply counting_bind; [apply (counting_NextTokensNoContext s)|].
  intros fl. destruct (negb (Contains fl TokenEpsilon));
    [apply counting_ret|].
  apply counting_bind; [|intros fe; apply counting_ret].
  destruct ctx as [c|]; [apply counting_expectedLoopFrom|].
  apply counting_ret.
Qed.

Lemma runQuery_counts q w :
  memoizedQuery q →
  memoCounts Look w (runQuery Look TokenEpsilon TokenEOF q w).
Proof.
  destruct q as [s [c|]|s|s [c|]|n ctx|d|i|i|]; simpl; intros Hq;
    unfold exec; try done.
  - apply counting_NextTokensInContext.
  - apply counting_NextTokensNoContext.
  - apply counting_NextTokensInContext.
  - apply counting_NextTokensNoContext.
  - apply counting_getExpectedTokens.
  - apply counting_bind; [apply counting_get|]. intros w0.
    case_decide; [apply counting_ret|apply counting_at_index].
  - apply counting_bind; [apply counting_get|]. intros w0.
    apply counting_at_index.
  - apply counting_bind; [apply counting_get|]. intros w0.
    apply counting_at_index.
  - apply counting_bind; [apply counting_get|]. intros w0.
    apply counting_ret.
Qed.

Lemma runQueries_counts qs w :
  Forall memoizedQuery qs →
  memoCounts Look w (runQueries Look TokenEpsilon TokenEOF qs w).
Proof.
  revert w. induction qs as [|q qs IH]; intros w Hqs.
  - apply memoCounts_refl.
  - apply Forall_cons in Hqs as [Hq Hqs].
    eapply memoCounts_trans; [apply (runQuery_counts q w Hq)|].
    apply (IH _ Hqs).
Qed.

End Counting.

(** X5: over any sequence of queries that does not call
    [NextTokensInContext] with a [nil] context directly, the analyzer is
    asked for the context-free set of a state at most once, and not at
    all when the state has a memo at the start. *)
Theorem analyzer_asked_once (Look : Analyzer) (TokenEpsilon TokenEOF : Z)
    (qs : list Query) (w : World) (p : addr) :
  Forall memoizedQuery qs →
  let w' := runQueries Look TokenEpsilon TokenEOF qs w in
  (contextFreeCalls p w' ≤ contextFreeCalls p w + 1)%nat
  ∧ (is_Some (memoOf (heap w) p) →
     contextFreeCalls p w' = contextFreeCalls p w).
Proof.
  intros Hqs w'.
  destruct (runQueries_counts Look TokenEpsilon TokenEOF qs w Hqs)
    as [_ Hc].
  fold w' in Hc. destruct (Hc p) as [E|(N & _ & E)].
  - split; [lia|done].
  - split; [lia|]. intros [v Hv]. congruence.
Qed.

(** ** Slots and state numbers agree *)

Lemma index_snoc {A} (l : list A) (x : A) (n : Z) (y : A) :
  index (l ++ [x]) n = Some y →
  index l n = Some y ∨ (n = len l ∧ y = x).
Proof.
  unfold index, len. case_decide as Hn; [|done].
  intros [[_ Hl]|[Hl ->]]%lookup_snoc_Some.
  - by left.
  - right. split; [lia|done].
Qed.

Lemma index_insert_Some {A} (l : list A) (k : nat) (x : A) (n : Z) (y : A) :
  index (<[k := x]> l) n = Some y →
  (n = Z.of_nat k ∧ y = x) ∨ (n ≠ Z.of_nat k ∧ index l n = Some y).
Proof.
  unfold index. case_decide as Hn; [|done].
  intros [(Hk & -> & _)|[Hk Hl]]%list_lookup_insert_Some.
  - left. split; [lia|done].
  - right. split; [lia|done].
Qed.

Lemma numbered_initial g t h : numbered (initialWorld g t h).
Proof. intros n p H. unfold index in H. simpl in H. by case_decide. Qed.

Lemma numbered_addState w s :
  numbered w → s ∉ filter is_Some (states (atn w)) →
  numbered (exec (addState s) w).
Proof.
  intros Hw Hs. unfold exec. destruct s as [p|].
  2:{ rewrite addState_nil. simpl. intros n q Hq.
      apply index_snoc in Hq as [Hq|[_ Hq]]; [by apply Hw|done]. }
  destruct (heap w !! p) as [o|] eqn:Hp.
  2:{ by rewrite (addState_dangling p w Hp). }
  rewrite (addState_stamps p o w Hp). simpl. intros n q Hq. simpl in *.
  apply index_snoc in Hq as [Hq|[-> [= ->]]].
  - assert (q ≠ p) as Hne.
    { intros ->. apply Hs. apply list_elem_of_filter. split; [done|].
      unfold index in Hq. case_decide; [|done].
      by eapply list_elem_of_lookup_2. }
    rewrite !lookup_alter_ne by done. by apply Hw.
  - rewrite !lookup_alter_eq, Hp. simpl. by eexists.
Qed.

Lemma numbered_removeState w s :
  numbered w → numbered (exec (removeState s) w).
Proof.
  intros Hw. unfold exec, removeState, bind, get, deref.
  destruct s as [p|]; [|done]. destruct (heap w !! p) as [o|]; [|done].
  case_decide; [|done]. simpl. intros n q Hq.
  apply index_insert_Some in Hq as [[_ Hq]|[_ Hq]]; [done|].
  by apply Hw.
Qed.

Lemma numbered_defineDecisionState w s :
  numbered w → numbered (exec (defineDecisionState s) w).
Proof.
  intros Hw. destruct s as [p|]; [|exact Hw].
  destruct (heap w !! p) as [o|] eqn:Hp.
  2:{ unfold exec, defineDecisionState, bind, modify, get, call_set, deref.
      simpl. unfold bind. simpl. by rewrite Hp. }
  unfold exec. rewrite (defineDecisionState_stamps p o w Hp). simpl.
  intros n q Hq. simpl in *. destruct (Hw n q Hq) as (oq & Hoq & Hn).
  rewrite lookup_alter. case_decide as Hpq; [|by eexists].
  subst q. rewrite Hoq. simpl. by eexists.
Qed.

Lemma numbered_memoExtends Look w w' :
  memoExtends Look w w' → numbered w → numbered w'.
Proof.
  intros H Hw n p Hp. rewrite (ext_atn _ _ _ H) in Hp.
  destruct (Hw n p Hp) as (o & Ho & Hn).
  pose proof (graph_lookup _ _ p (ext_graph _ _ _ H)) as Hg.
  rewrite Ho in Hg. destruct (heap w' !! p) as [o'|]; [|done].
  injection Hg as _ Hnum _ _. exists o'. split; [done|congruence].
Qed.

(** X6: the agreement of slots and state numbers is an invariant: it
    holds on a new graph and is kept by every query, by [removeState],
    by [defineDecisionState] and by [addState] of [nil] or of a state
    that is not yet in [states]. *)
Theorem slots_carry_their_number (Look : Analyzer)
    (TokenEpsilon TokenEOF : Z) (w : World) :
  numbered w →
  (∀ s, s ∉ filter is_Some (states (atn w)) →
     numbered (exec (addState s) w))
  ∧ (∀ s, numbered (exec (removeState s) w))
  ∧ (∀ s, numbered (exec (defineDecisionState s) w))
  ∧ (∀ qs, numbered (runQueries Look TokenEpsilon TokenEOF qs w)).
Proof.
  intros Hw. split; [|split; [|split]].
  - intros s. by apply numbered_addState.
  - intros s. by apply numbered_removeState.
  - intros s. by apply numbered_defineDecisionState.
  - intros qs. eapply numbered_memoExtends; [|exact Hw].
    apply runQueries_extends.
Qed.

(** X7: on a graph whose slots carry their number, [removeState] of a
    state held in [states] returns and takes exactly that state out:
    afterwards the state is in no slot, and every other state is in the
    slots it was in. *)
Theorem removeState_removes (w : World) (k : Z) (p : addr) :
  numbered w →
  index (states (atn w)) k = Some (Some p) →
  let w' := exec (removeState (Some p)) w in
  (removeState (Some p) w).1 = Ok tt
  ∧ (Some p ∉ states (atn w'))
  ∧ (∀ n q, q ≠ p →
       index (states (atn w')) n = Some (Some q)
       ↔ index (states (atn w)) n = Some (Some q)).
Proof.
  intros Hw Hk w'. destruct (Hw k p Hk) as (o & Ho & Hn).
  apply index_Some_range in Hk as Hr.
  assert (Hrem := removeState_clears p o w Ho). rewrite Hn in Hrem.
  specialize (Hrem Hr). unfold w', exec. rewrite Hrem. simpl.
  split; [done|]. split.
  - intros [j Hj]%list_elem_of_lookup.
    assert (Hj' : index (<[Z.to_nat k:=None]> (states (atn w)))
                    (Z.of_nat j) = Some (Some p))
      by (by rewrite index_nat).
    apply index_insert_Some in Hj' as [[_ ?]|[Hne Hj']]; [done|].
    destruct (Hw _ _ Hj') as (o' & Ho' & Hn'). rewrite Ho in Ho'.
    injection Ho' as <-. lia.
  - intros n q Hq. split.
    + intros H. by apply index_insert_Some in H as [[_ ?]|[_ H]].
    + intros H. destruct (decide (n = k)) as [->|Hne].
      { rewrite Hk in H. by injection H as ->. }
      unfold index in *. case_decide; [|done].
      rewrite list_lookup_insert_ne; [done|lia].
Qed.

(** X8: the number of a state is the one of its last [addState]: after
    adding the same state twice, [removeState] clears the later slot and
    the state stays in the earlier one. *)
Theorem addState_twice_keeps_state (w : World) (p : addr) (o : StateObj) :
  heap w !! p = Some o →
  let n := len (states (atn w)) in
  let w2 := exec (addState (Some p)) (exec (addState (Some p)) w) in
  let w3 := exec (removeState (Some p)) w2 in
  states (atn w2) = states (atn w) ++ [Some p; Some p]
  ∧ stateNumber <$> heap w2 !! p = Some (n + 1)
  ∧ (removeState (Some p) w2).1 = Ok tt
  ∧ states (atn w3) = states (atn w) ++ [Some p; None].
Proof.
  intros Hp n w2 w3.
  assert (H1 := addState_stamps p o w Hp).
  set (w1 := set_atn _ _) in H1.
  assert (Hp1 : heap w1 !! p = Some (SetStateNumber (SetATN o) n)).
  { unfold w1. simpl. by rewrite !lookup_alter_eq, Hp. }
  assert (H2 := addState_stamps p _ w1 Hp1).
  set (w2' := set_atn _ _) in H2.
  assert (Hw2 : w2 = w2').
  { unfold w2, exec. rewrite H1. simpl. by rewrite H2. }
  assert (Hs2 : states (atn w2') = states (atn w) ++ [Some p; Some p]).
  { unfold w2', w1. simpl. by rewrite <- app_assoc. }
  assert (Hp2 : heap w2' !! p = Some
            (SetStateNumber (SetATN (SetStateNumber (SetATN o) n)) (n + 1))).
  { unfold w2'. cbn [heap set_atn set_heap].
    rewrite !lookup_alter_eq, Hp1. cbn [fmap option_fmap option_map].
    do 2 f_equal. unfold w1. simpl. rewrite len_app. unfold n, len. simpl.
    lia. }
  assert (Hlen : len (states (atn w2')) = n + 2).
  { rewrite Hs2, len_app. unfold n, len. simpl. lia. }
  assert (Hk : 0 ≤ stateNumber (SetStateNumber
                 (SetATN (SetStateNumber (SetATN o) n)) (n + 1))
               < len (states (atn w2'))).
  { rewrite Hlen. cbn [stateNumber SetStateNumber]. unfold n, len. lia. }
  assert (H3 := removeState_clears p _ w2' Hp2 Hk).
  cbn [stateNumber SetStateNumber] in H3.
  unfold w3, exec. rewrite Hw2, H3. cbn [fst snd atn set_atn states set_states].
  split; [exact Hs2|]. split; [by rewrite Hp2|]. split; [done|].
  rewrite Hs2.
  replace (Z.to_nat (n + 1)) with (length (states (atn w)) + 1)%nat
    by (unfold n, len; lia).
  by rewrite insert_app_r.
Qed.

Lemma removeState_cases s w :
  removeState s w =
    match s with
    | None => (Panicked NilDereference, w)
    | Some p =>
        match heap w !! p with
        | None => (Panicked NilDereference, w)
        | Some o =>
            if decide (0 ≤ stateNumber o < len (states (atn w))) then
              (Ok tt,
               set_atn w (set_states (atn w)
                 (<[Z.to_nat (stateNumber o) := None]> (states (atn w)))))
            else (Panicked IndexOutOfRange, w)
        end
    end.
Proof.
  unfold removeState, bind, get, deref. destruct s as [p|]; [|done].
  destruct (heap w !! p) as [o|]; [|done]. by case_decide.
Qed.

(** X9: [removeState] never resets the number of the state, so
    removing a state again repeats the first removal: same result, same
    store; and a [removeState] that panics leaves the store as it
    was. *)
Theorem removeState_idempotent (s : ATNState) (w : World) :
  (removeState s (exec (removeState s) w)).1 = (removeState s w).1
  ∧ exec (removeState s) (exec (removeState s) w) = exec (removeState s) w
  ∧ ((removeState s w).1 ≠ Ok tt → exec (removeState s) w = w).
Proof.
  unfold exec. rewrite (removeState_cases s w).
  destruct s as [p|]; [|by rewrite removeState_cases].
  destruct (heap w !! p) as [o|] eqn:Hp.
  2:{ cbn [fst snd]. by rewrite removeState_cases, Hp. }
  case_decide as Hk; cbn [fst snd].
  2:{ rewrite removeState_cases, Hp. by rewrite decide_False. }
  rewrite removeState_cases. cbn [heap set_atn]. rewrite Hp.
  cbn [atn set_atn states set_states].
  assert (Hlen : len (<[Z.to_nat (stateNumber o):=None]> (states (atn w)))
                 = len (states (atn w))).
  { unfold len. by rewrite length_insert. }
  rewrite decide_True by (by rewrite Hlen). cbn [fst snd].
  split; [done|]. split; [|done].
  unfold set_atn, set_states. simpl. by rewrite list_insert_insert_eq.
Qed.

(** ** A new graph, and the tables of a graph *)

(** X10: on the graph [NewATN] returns there is no state, no decision
    and no rule: [getDecisionState] returns [nil] for every index,
    [getExpectedTokens] raises the invalid-state panic for every
    number, the rule tables panic on every index, [GetMaxTokenType]
    returns the constructor's argument, and the first state added and
    the first decision defined get number 0. *)
Theorem NewATN_is_empty (Look : Analyzer) (TokenEpsilon TokenEOF : Z)
    (g t : Z) (w0 : World) :
  let w := set_atn w0 (NewATN g t) in
  (∀ i, getDecisionState i w = (Ok None, w))
  ∧ (∀ n ctx, getExpectedTokens Look TokenEpsilon TokenEOF n ctx w
              = (Panicked (PanicMsg "Invalid state number."), w))
  ∧ (∀ i, GetRuleToStartState i w = (Panicked IndexOutOfRange, w))
  ∧ (∀ i, GetRuleToStopState i w = (Panicked IndexOutOfRange, w))
  ∧ GetMaxTokenType w = (Ok t, w)
  ∧ (∀ p o, heap w0 !! p = Some o →
       stateNumber <$> heap (exec (addState (Some p)) w) !! p = Some 0
       ∧ (defineDecisionState (Some p) w).1 = Ok 0).
Proof.
  intros w. assert (Hi : ∀ A i, index (@nil A) i = None).
  { intros A i. unfold index. by case_decide. }
  split; [by intros i; apply getDecisionState_empty|].
  split.
  { intros n ctx. apply getExpectedTokens_invalid. unfold len. simpl. lia. }
  split.
  { intros i. unfold GetRuleToStartState, bind, get, at_index. simpl.
    by rewrite Hi. }
  split.
  { intros i. unfold GetRuleToStopState, bind, get, at_index. simpl.
    by rewrite Hi. }
  split; [done|]. intros p o Hp. split.
  - unfold exec. rewrite (addState_stamps p o w Hp). simpl.
    by rewrite !lookup_alter_eq, Hp.
  - by rewrite (defineDecisionState_stamps p o w Hp).
Qed.

Lemma keepsTables_bind {A B} (m : M A) (k : A → M B) :
  keepsTables m → (∀ a, keepsTables (k a)) → keepsTables (bind m k).
Proof.
  intros Hm Hk w. unfold bind. specialize (Hm w).
  destruct (m w) as [[a|p] w']; simpl in *; [|done].
  by rewrite Hk.
Qed.

Lemma keepsTables_deref s : keepsTables (deref s).
Proof.
  intros w. unfold deref. destruct s as [p|]; [|done].
  by destruct (heap w !! p).
Qed.

Lemma keepsTables_call_set s f : keepsTables (call_set s f).
Proof.
  destruct s as [p|]; [|done]. simpl.
  apply keepsTables_bind; [apply keepsTables_deref|]. by intros _ w.
Qed.

Lemma keepsTables_runMutation m w :
  tables (atn (runMutation m w)) = tables (atn w).
Proof.
  destruct m as [s|s|s]; simpl; unfold exec.
  - apply keepsTables_bind; [done|]. intros w0.
    apply keepsTables_bind; [|by intros _ v].
    destruct s; [|done].
    apply keepsTables_bind; intros; apply keepsTables_call_set.
  - apply keepsTables_bind; [apply keepsTables_deref|]. intros o.
    apply keepsTables_bind; [done|]. intros w0. by case_decide.
  - apply keepsTables_bind; [done|]. intros _.
    apply keepsTables_bind; [done|]. intros w0.
    apply keepsTables_bind; [apply keepsTables_call_set|]. intros _.
    apply keepsTables_bind; [apply keepsTables_deref|]. by intros o v.
Qed.

(** X11: no function of the file but [NewATN] writes the grammar type,
    the maximum token type, the rule tables, the mode tables or the
    lexer actions: after any sequence of state and decision changes and
    of queries they are what they were, so [GetMaxTokenType],
    [GetRuleToStartState] and [GetRuleToStopState] answer as before. *)
Theorem tables_are_constant (Look : Analyzer) (TokenEpsilon TokenEOF : Z)
    (cs : list Call) (w : World) :
  forallb onSameGraph cs = true →
  let w' := runCalls Look TokenEpsilon TokenEOF cs w in
  tables (atn w') = tables (atn w)
  ∧ (GetMaxTokenType w').1 = (GetMaxTokenType w).1
  ∧ (∀ i, (GetRuleToStartState i w').1 = (GetRuleToStartState i w).1)
  ∧ (∀ i, (GetRuleToStopState i w').1 = (GetRuleToStopState i w).1).
Proof.
  intros Hcs w'.
  assert (Ht : tables (atn w') = tables (atn w)).
  { unfold w'. clear w'. revert w.
    induction cs as [|c cs IH]; intros w; [done|].
    simpl in Hcs. apply andb_prop in Hcs as [Hc Hcs].
    change (runCalls Look TokenEpsilon TokenEOF (c :: cs) w)
      with (runCalls Look TokenEpsilon TokenEOF cs
              (runCall Look TokenEpsilon TokenEOF c w)).
    rewrite (IH Hcs). destruct c as [g t|q|m]; [done| |].
    - simpl.
      by rewrite (ext_atn _ _ _ (runQuery_extends Look _ _ q w)).
    - apply keepsTables_runMutation. }
  split; [exact Ht|]. unfold tables in Ht.
  injection Ht as _ _ Hmax _ _ Hstart Hstop _.
  unfold GetMaxTokenType, GetRuleToStartState, GetRuleToStopState, bind, get.
  simpl. rewrite Hmax, Hstart, Hstop. split; [done|].
  split; intros i; unfold at_index;
    by destruct (index _ i).
Qed.

(** ** Decision slots and decision indices agree *)

Lemma decisionsIndexed_initial g t h : decisionsIndexed (initialWorld g t h).
Proof. intros n p H. unfold index in H. simpl in H. by case_decide. Qed.

Lemma decisionsIndexed_defineDecisionState w s :
  decisionsIndexed w →
  s ∉ filter is_Some (DecisionToState (atn w)) →
  (∀ p, s = Some p → is_Some (heap w !! p)) →
  decisionsIndexed (exec (defineDecisionState s) w).
Proof.
  intros Hw Hs Hal. unfold exec. destruct s as [p|].
  2:{ simpl. intros i q Hq. simpl in Hq.
      apply index_snoc in Hq as [Hq|[_ Hq]]; [by apply Hw|done]. }
  destruct (Hal p eq_refl) as [o Hp].
  rewrite (defineDecisionState_stamps p o w Hp). simpl.
  intros i q Hq. simpl in *.
  apply index_snoc in Hq as [Hq|[-> [= ->]]].
  - assert (q ≠ p) as Hne.
    { intros ->. apply Hs. apply list_elem_of_filter. split; [done|].
      unfold index in Hq. case_decide; [|done].
      by eapply list_elem_of_lookup_2. }
    rewrite lookup_alter_ne by done. by apply Hw.
  - rewrite lookup_alter_eq, Hp. simpl. by eexists.
Qed.

Lemma decisionsIndexed_addState w s :
  decisionsIndexed w → decisionsIndexed (exec (addState s) w).
Proof.
  intros Hw. unfold exec. destruct s as [p|]; [|exact Hw].
  destruct (heap w !! p) as [o|] eqn:Hp.
  2:{ by rewrite (addState_dangling p w Hp). }
  rewrite (addState_stamps p o w Hp). simpl. intros i q Hq. simpl in *.
  destruct (Hw i q Hq) as (oq & Hoq & Hi).
  destruct (decide (q = p)) as [->|Hne].
  - rewrite !lookup_alter_eq, Hoq. simpl. by eexists.
  - rewrite !lookup_alter_ne by done. by eexists.
Qed.

Lemma decisionsIndexed_removeState w s :
  decisionsIndexed w → decisionsIndexed (exec (removeState s) w).
Proof.
  intros Hw. unfold exec. rewrite removeState_cases.
  destruct s as [p|]; [|done]. destruct (heap w !! p) as [o|]; [|done].
  by case_decide.
Qed.

Lemma decisionsIndexed_memoExtends Look w w' :
  memoExtends Look w w' → decisionsIndexed w → decisionsIndexed w'.
Proof.
  intros H Hw i p Hp. rewrite (ext_atn _ _ _ H) in Hp.
  destruct (Hw i p Hp) as (o & Ho & Hi).
  pose proof (graph_lookup _ _ p (ext_graph _ _ _ H)) as Hg.
  rewrite Ho in Hg. destruct (heap w' !! p) as [o'|]; [|done].
  injection Hg as _ _ _ Hdec. exists o'. split; [done|congruence].
Qed.

(** X12: the agreement of decision slots and decision indices is an
    invariant: it is kept by every query, by [addState], by
    [removeState] and by [defineDecisionState] of [nil] or of a state
    that is not yet in [DecisionToState]; under it [getDecisionState]
    at the index a state carries returns that state. *)
Theorem decisions_carry_their_index (Look : Analyzer)
    (TokenEpsilon TokenEOF : Z) (w : World) :
  decisionsIndexed w →
  (∀ s, s ∉ filter is_Some (DecisionToState (atn w)) →
     (∀ p, s = Some p → is_Some (heap w !! p)) →
     decisionsIndexed (exec (defineDecisionState s) w))
  ∧ (∀ s, decisionsIndexed (exec (addState s) w))
  ∧ (∀ s, decisionsIndexed (exec (removeState s) w))
  ∧ (∀ qs, decisionsIndexed (runQueries Look TokenEpsilon TokenEOF qs w))
  ∧ (∀ p o, Some p ∈ DecisionToState (atn w) → heap w !! p = Some o →
       getDecisionState (decision o) w = (Ok (Some p), w)).
Proof.
  intros Hw. split; [|split; [|split; [|split]]].
  - intros s. by apply decisionsIndexed_defineDecisionState.
  - intros s. by apply decisionsIndexed_addState.
  - intros s. by apply decisionsIndexed_removeState.
  - intros qs. eapply decisionsIndexed_memoExtends; [|exact Hw].
    apply runQueries_extends.
  - intros p o [i Hi]%list_elem_of_lookup Hp.
    destruct (Hw (Z.of_nat i) p) as (o' & Ho' & Hd).
    { by rewrite index_nat. }
    rewrite Hp in Ho'. injection Ho' as <-. rewrite Hd.
    by apply getDecisionState_lookup.
Qed.

(** X13: [defineDecisionState] appends before it stamps, so a call on
    [nil] panics with the entry already appended: the table has grown by
    a [nil] slot, [getDecisionState] returns [nil] there, and the next
    state defined gets the index after it. *)
Theorem defineDecisionState_nil_consumes_index (w : World) :
  let n := len (DecisionToState (atn w)) in
  let w1 := exec (defineDecisionState None) w in
  (defineDecisionState None w).1 = Panicked NilDereference
  ∧ DecisionToState (atn w1) = DecisionToState (atn w) ++ [None]
  ∧ heap w1 = heap w
  ∧ getDecisionState n w1 = (Ok None, w1)
  ∧ (∀ p o, heap w !! p = Some o →
       (defineDecisionState (Some p) w1).1 = Ok (n + 1)).
Proof.
  intros n w1. split; [done|]. split; [done|]. split; [done|]. split.
  - apply getDecisionState_lookup. unfold w1, exec. simpl.
    by apply list_lookup_middle.
  - intros p o Hp.
    assert (Hp1 : heap w1 !! p = Some o) by exact Hp.
    rewrite (defineDecisionState_stamps p o w1 Hp1). simpl.
    f_equal. unfold w1, exec. simpl. rewrite len_app. unfold n, len.
    simpl. lia.
Qed.

(** ** Panics of [getExpectedTokens] past the state-number check *)

Lemma getExpectedTokens_nil_slot (Look : Analyzer)
    (TokenEpsilon TokenEOF : Z) (n : Z) (ctx : RuleContext) (w : World) :
  index (states (atn w)) n = Some None →
  getExpectedTokens Look TokenEpsilon TokenEOF n ctx w
    = (Panicked NilDereference, w).
Proof.
  intros Hn. apply index_Some_range in Hn as Hr.
  rewrite getExpectedTokens_valid by lia.
  unfold at_index. rewrite Hn. done.
Qed.

(** X14: a slot emptied by [removeState], or filled with [nil] by
    [addState], keeps its number inside the range of state numbers:
    [getExpectedTokens] at that number passes the state-number check and
    panics with a nil dereference, leaving the store as it was. *)
Theorem getExpectedTokens_removed_state (Look : Analyzer)
    (TokenEpsilon TokenEOF : Z) (p : addr) (o : StateObj)
    (ctx : RuleContext) (w : World) :
  heap w !! p = Some o →
  0 ≤ stateNumber o < len (states (atn w)) →
  let w1 := exec (removeState (Some p)) w in
  let w2 := exec (addState None) w in
  getExpectedTokens Look TokenEpsilon TokenEOF (stateNumber o) ctx w1
    = (Panicked NilDereference, w1)
  ∧ getExpectedTokens Look TokenEpsilon TokenEOF (len (states (atn w)))
      ctx w2
    = (Panicked NilDereference, w2).
Proof.
  intros Hp Hk w1 w2. split; apply getExpectedTokens_nil_slot.
  - unfold w1, exec. rewrite (removeState_clears p o w Hp Hk). simpl.
    unfold index. rewrite decide_True by lia.
    apply list_lookup_insert_eq. unfold len in Hk. lia.
  - unfold w2, exec. rewrite addState_nil. simpl. unfold len.
    rewrite index_nat. by apply list_lookup_middle.
Qed.

(** X15: a context whose top link records an invocation at a call site
    of the graph but has no parent makes [getExpectedTokens] panic on
    the type assertion of the parent, whenever the local set holds
    epsilon: the link is processed first, then the step to the parent
    fails, whatever the set computed for the link. *)
Theorem getExpectedTokens_unlinked_chain (Look : Analyzer)
    (TokenEpsilon TokenEOF : Z) (stateNumber inv : Z) (w : World)
    (s : ATNState) (following : IntervalSet) (w1 : World) :
  index (states (atn w)) stateNumber = Some s →
  NextTokens Look s None w = (Ok following, w1) →
  Contains following TokenEpsilon = true →
  0 ≤ inv →
  callSite w inv →
  (getExpectedTokens Look TokenEpsilon TokenEOF stateNumber
     (Some (mkRuleContext inv None)) w).1 = Panicked TypeAssertion.
Proof.
  intros Hs Hn Hf Hinv Hsite.
  rewrite (getExpectedTokens_epsilon _ _ _ _ _ _ _ _ _ Hs Hn Hf).
  assert (Hext : memoExtends Look w w1).
  { pose proof (NextTokens_extending Look s None w) as H.
    by rewrite Hn in H. }
  apply (memoExtends_callSite Look w w1 inv Hext) in Hsite.
  destruct (enclosingFollowState_callSite w1 inv Hsite) as (f & Hfs & Hal).
  destruct (NextTokensNoContext_returns Look f w1 Hal) as [fl Hfl].
  assert (Hloop : expectedLoop Look TokenEpsilon
            (Some (mkRuleContext inv None)) following
            (removeOne (addSet NewIntervalSet following) TokenEpsilon) w1
          = (Panicked TypeAssertion,
             exec (NextTokensNoContext Look (Some f)) w1)).
  { unfold expectedLoop. rewrite expectedLoopFrom_unfold.
    rewrite bool_decide_eq_true_2, Hf by done. cbn [andb].
    rewrite (bind_Ok _ _ _ _ _ Hfs).
    change (NextTokens Look (Some f) None)
      with (NextTokensNoContext Look (Some f)).
    by rewrite (bind_Ok _ _ _ _ _ Hfl). }
  by rewrite (bind_Panicked _ _ _ _ _ Hloop).
Qed.

(** ** Where the expected tokens come from *)

Section Sources.

Variable Look : Analyzer.
Variable TokenEpsilon TokenEOF : Z.

(** What [NextTokensNoContext] returns is the memo of the state
    afterwards. *)
Lemma NextTokensNoContext_stores s w v w1 :
  NextTokensNoContext Look s w = (Ok v, w1) →
  ∃ p, s = Some p ∧ memoOf (heap w1) p = Some v.
Proof.
  intros H. destruct s as [p|]; [|done]. exists p. split; [done|].
  unfold memoOf. destruct (heap w !! p) as [o|] eqn:Hp.
  2:{ unfold NextTokensNoContext, bind, deref in H. by rewrite Hp in H. }
  destruct (nextTokenWithinRule o) as [m|] eqn:Hm.
  - rewrite (NextTokensNoContext_hit Look p m w) in H
      by (unfold memoOf; by rewrite Hp).
    injection H as <- <-. by rewrite Hp.
  - rewrite (NextTokensNoContext_miss Look p o w Hp Hm) in H.
    injection H as <- <-. simpl. by rewrite lookup_alter_eq, Hp.
Qed.

Lemma enclosingFollowState_transport w w' inv fs :
  memoExtends Look w w' →
  enclosingFollowState inv w' = (Ok fs, w') →
  enclosingFollowState inv w = (Ok fs, w).
Proof.
  intros H Hfs.
  destruct (memoTransparent_enclosingFollowState Look inv w w' H) as [Hr _].
  rewrite Hfs in Hr. simpl in Hr.
  destruct (enclosingFollowState inv w) as [r v] eqn:E.
  apply enclosingFollowState_pure in E as Hv. simpl in Hr. by subst.
Qed.

Lemma expectedLoopFrom_sources c :
  ∀ following expected w fl ex w',
    expectedLoopFrom Look TokenEpsilon c following expected w
      = (Ok (fl, ex), w') →
    ∀ t, t ∈ elems ex →
      t ∈ elems expected
      ∨ ∃ p v inv,
          memoOf (heap w') p = Some v ∧ t ∈ elems v
          ∧ inv ∈ invokingStates c
          ∧ enclosingFollowState inv w = (Ok (Some p), w).
Proof.
  induction c as [inv|inv par IH] using RuleContextObj_chain_ind;
    intros following expected w fl ex w' H t Ht;
    rewrite expectedLoopFrom_unfold in H;
    (destruct (bool_decide (0 ≤ inv) && Contains following TokenEpsilon);
     [|injection H as <- <- <-; by left]);
    unfold bind in H;
    (destruct (enclosingFollowState inv w) as [[fs|e] w1] eqn:Hfs;
     [|done]);
    apply enclosingFollowState_pure in Hfs as Hw1; subst w1;
    (destruct (NextTokens Look fs None w) as [[outer|e] w2] eqn:Hout;
     [|done]).
  - done.
  - assert (Hext : memoExtends Look w w2).
    { pose proof (NextTokens_extending Look fs None w) as E.
      by rewrite Hout in E. }
    assert (Hext' : memoExtends Look w2 w').
    { pose proof (expectedLoopFrom_extending Look TokenEpsilon par outer
        (removeOne (addSet expected outer) TokenEpsilon) w2) as E.
      by rewrite H in E. }
    destruct (IH _ _ _ _ _ _ H t Ht)
      as [Hin|(p & v & inv' & Hm & Hv & Hi & He)].
    + simpl in Hin. apply elem_of_difference in Hin as [Hin _].
      apply elem_of_union in Hin as [Hin|Hin]; [by left|]. right.
      apply NextTokensNoContext_stores in Hout as (q & -> & Hq).
      exists q, outer, inv. split; [by eapply memoExtends_keeps|].
      split; [done|]. split; [simpl; set_solver|done].
    + right. exists p, v, inv'. split; [done|]. split; [done|].
      split; [simpl; set_solver|].
      by eapply enclosingFollowState_transport.
Qed.

End Sources.

(** X17: every token of a set returned by [getExpectedTokens], the
    end-of-input marker apart, is a token of the memo that the final
    store holds for the state itself or for a return state of the
    context, that is, the follow state of one of its invoking
    states. *)
Theorem getExpectedTokens_sources (Look : Analyzer)
    (TokenEpsilon TokenEOF : Z) (stateNumber : Z) (ctx : RuleContext)
    (w : World) (r : IntervalSet) (w' : World) :
  getExpectedTokens Look TokenEpsilon TokenEOF stateNumber ctx w
    = (Ok r, w') →
  ∀ t, Contains r t = true →
    t = TokenEOF
    ∨ ∃ p v, memoOf (heap w') p = Some v ∧ Contains v t = true
        ∧ (index (states (atn w)) stateNumber = Some (Some p)
           ∨ returnState w ctx p).
Proof.
  intros H t Ht%Contains_true.
  apply getExpectedTokens_Ok_inv in H
    as (s & Hs & [[Hn _]|(following & w1 & fl & ex & Hn & _ & Hl & ->)]).
  - right. apply NextTokensNoContext_stores in Hn as (p & -> & Hp).
    exists p, r. split; [done|]. split; [by apply Contains_true|by left].
  - assert (Hext : memoExtends Look w w1).
    { pose proof (NextTokens_extending Look s None w) as E.
      by rewrite Hn in E. }
    assert (Hext' : memoExtends Look w1 w').
    { pose proof (expectedLoop_extending Look TokenEpsilon ctx following
        (removeOne (addSet NewIntervalSet following) TokenEpsilon) w1) as E.
      by rewrite Hl in E. }
    apply NextTokensNoContext_stores in Hn as (p0 & -> & Hp0).
    assert (Hex : t = TokenEOF ∨ t ∈ elems ex).
    { destruct (Contains fl TokenEpsilon); simpl in Ht; set_solver. }
    destruct Hex as [->|Hex]; [by left|]. right.
    assert (Hlocal : t ∈ elems
              (removeOne (addSet NewIntervalSet following) TokenEpsilon) →
            ∃ p v, memoOf (heap w') p = Some v ∧ Contains v t = true
              ∧ (index (states (atn w)) stateNumber = Some (Some p)
                 ∨ returnState w ctx p)).
    { intros Hin. exists p0, following.
      split; [by eapply memoExtends_keeps|].
      split; [apply Contains_true; simpl in Hin; set_solver|by left]. }
    destruct ctx as [c|]; simpl in Hl.
    2:{ injection Hl as <- <- <-. by apply Hlocal. }
    destruct (expectedLoopFrom_sources Look TokenEpsilon c _ _ _ _ _ _ Hl
                t Hex) as [Hin|(p & v & inv & Hm & Hv & Hi & He)];
      [by apply Hlocal|].
    exists p, v. split; [done|]. split; [by apply Contains_true|].
    right. exists c, inv. split; [done|]. split; [done|].
    by eapply enclosingFollowState_transport.
Qed.

(** ** The sample grammar, continued *)

Lemma sample_numbered : numbered sampleWorld.
Proof.
  intros n p H. apply index_Some_range in H as Hr.
  change (len (states (atn sampleWorld))) with 6 in Hr.
  assert (n = 0 ∨ n = 1 ∨ n = 2 ∨ n = 3 ∨ n = 4 ∨ n = 5) as Hn by lia.
  destruct Hn as [?|[?|[?|[?|[?|?]]]]]; subst n;
    vm_compute in H; injection H as <-;
    eexists; (split; [vm_compute; reflexivity|reflexivity]).
Qed.

Lemma sample_callSite : callSite sampleWorld 1.
Proof.
  exists 101%nat, (sampleState 1
                     [RuleTransition (Some 104%nat) (Some 102%nat)]),
    (Some 104%nat), 102%nat, []. repeat split. by eexists.
Qed.

Lemma decisionsIndexed_no_decisions w :
  DecisionToState (atn w) = [] → decisionsIndexed w.
Proof.
  intros He i p H. rewrite He in H. unfold index in H. by case_decide.
Qed.

(** X3 (witness): the run on the sample grammar under [sampleContext],
    which returns a new set. *)
Lemma getExpectedTokens_memo_or_new_witness :
  (∃ p, index (states (atn sampleWorld)) 4 = Some (Some p)
        ∧ memoOf (heap sampleWorld2) p = Some sampleExpected
        ∧ NextTokensNoContext sampleLook (Some p) sampleWorld
          = (Ok sampleExpected, sampleWorld2))
  ∨ readOnly sampleExpected = false.
Proof.
  apply (getExpectedTokens_memo_or_new sampleLook (-2) (-1) 4 sampleContext
           sampleWorld sampleExpected sampleWorld2).
  vm_compute. reflexivity.
Defined.

(** X5 (witness): a run of queries on the sample grammar; the start
    state of rule [B] has no memo at the start. *)
Lemma analyzer_asked_once_witness :
  Forall memoizedQuery sampleQueries
  ∧ (contextFreeCalls 104%nat
       (runQueries sampleLook (-2) (-1) sampleQueries sampleWorld)
     ≤ contextFreeCalls 104%nat sampleWorld + 1)%nat.
Proof.
  assert (H : Forall memoizedQuery sampleQueries)
    by (repeat constructor).
  split; [exact H|].
  exact (proj1 (analyzer_asked_once sampleLook (-2) (-1) sampleQueries
                  sampleWorld 104%nat H)).
Defined.

(** X6 (witness): the sample graph. *)
Lemma slots_carry_their_number_witness :
  numbered sampleWorld
  ∧ numbered (exec (removeState (Some 102%nat)) sampleWorld)
  ∧ numbered (runQueries sampleLook (-2) (-1) sampleQueries sampleWorld).
Proof.
  destruct (slots_carry_their_number sampleLook (-2) (-1) sampleWorld
              sample_numbered) as (_ & Hr & _ & Hq).
  split; [exact sample_numbered|]. split; [apply Hr|apply Hq].
Defined.

(** X7 (witness): removing state 2 of the sample graph. *)
Lemma removeState_removes_witness :
  index (states (atn sampleWorld)) 2 = Some (Some 102%nat)
  ∧ (removeState (Some 102%nat) sampleWorld).1 = Ok tt
  ∧ (Some 102%nat ∉ states (atn (exec (removeState (Some 102%nat))
                                   sampleWorld))).
Proof.
  assert (H : index (states (atn sampleWorld)) 2 = Some (Some 102%nat))
    by reflexivity.
  destruct (removeState_removes sampleWorld 2 102%nat sample_numbered H)
    as (H1 & H2 & _).
  split; [exact H|]. split; [exact H1|exact H2].
Defined.

(** X8 (witness): adding the start state of rule [B] twice more. *)
Lemma addState_twice_keeps_state_witness :
  heap sampleWorld !! 104%nat = Some sampleStateB
  ∧ states (atn (exec (removeState (Some 104%nat))
                   (exec (addState (Some 104%nat))
                      (exec (addState (Some 104%nat)) sampleWorld))))
    = states (atn sampleWorld) ++ [Some 104%nat; None].
Proof.
  assert (H : heap sampleWorld !! 104%nat = Some sampleStateB)
    by reflexivity.
  destruct (addState_twice_keeps_state sampleWorld 104%nat sampleStateB H)
    as (_ & _ & _ & H4).
  split; [exact H|exact H4].
Defined.

(** X11 (witness): a run of calls on the sample graph. *)
Lemma tables_are_constant_witness :
  forallb onSameGraph sampleCalls = true
  ∧ (GetMaxTokenType
       (runCalls sampleLook (-2) (-1) sampleCalls sampleWorld)).1
    = (GetMaxTokenType sampleWorld).1.
Proof.
  assert (H : forallb onSameGraph sampleCalls = true) by reflexivity.
  destruct (tables_are_constant sampleLook (-2) (-1) sampleCalls
              sampleWorld H) as (_ & H2 & _).
  split; [exact H|exact H2].
Defined.

(** X14 (witness): removing state 2 of the sample graph. *)
Lemma getExpectedTokens_removed_state_witness :
  heap sampleWorld !! 102%nat
    = Some (sampleState 2 [OtherTransition (Some 103%nat)])
  ∧ 0 ≤ 2 < len (states (atn sampleWorld))
  ∧ getExpectedTokens sampleLook (-2) (-1) 2 sampleContext
      (exec (removeState (Some 102%nat)) sampleWorld)
    = (Panicked NilDereference,
       exec (removeState (Some 102%nat)) sampleWorld).
Proof.
  assert (H1 : heap sampleWorld !! 102%nat
               = Some (sampleState 2 [OtherTransition (Some 103%nat)]))
    by reflexivity.
  assert (H2 : 0 ≤ 2 < len (states (atn sampleWorld)))
    by (unfold len; simpl; lia).
  split; [exact H1|]. split; [exact H2|].
  exact (proj1 (getExpectedTokens_removed_state sampleLook (-2) (-1)
                  102%nat _ sampleContext sampleWorld H1 H2)).
Defined.

(** X15 (witness): the invocation of rule [B] from state 1 of the
    sample grammar, recorded in a link without parent. *)
Lemma getExpectedTokens_unlinked_chain_witness :
  callSite sampleWorld 1
  ∧ (getExpectedTokens sampleLook (-2) (-1) 4
       (Some (mkRuleContext 1 None)) sampleWorld).1
    = Panicked TypeAssertion.
Proof.
  split; [exact sample_callSite|].
  apply (getExpectedTokens_unlinked_chain sampleLook (-2) (-1) 4 1
           sampleWorld (Some 104%nat) sampleFollowing sampleWorld1).
  - reflexivity.
  - vm_compute. reflexivity.
  - reflexivity.
  - lia.
  - exact sample_callSite.
Defined.

(** X16 (witness): the run on the sample grammar under
    [sampleContext]. *)
Lemma getExpectedTokens_returns_witness :
  contextResolves sampleWorld sampleContext
  ∧ ∃ r w',
      getExpectedTokens sampleLook (-2) (-1) 4 sampleContext sampleWorld
        = (Ok r, w')
      ∧ asksOnGraph sampleWorld w'.
Proof.
  split; [exact sample_context_resolves|].
  apply (getExpectedTokens_returns sampleLook (-2) (-1) 4 sampleContext
           sampleWorld 104%nat).
  - reflexivity.
  - by eexists.
  - exact sample_context_resolves.
Defined.

(** X17 (witness): token 2 of the run on the sample grammar under
    [sampleContext]. *)
Lemma getExpectedTokens_sources_witness :
  Contains sampleExpected 2 = true
  ∧ (2 = -1
     ∨ ∃ p v, memoOf (heap sampleWorld2) p = Some v ∧ Contains v 2 = true
         ∧ (index (states (atn sampleWorld)) 4 = Some (Some p)
            ∨ returnState sampleWorld sampleContext p)).
Proof.
  assert (H1 : getExpectedTokens sampleLook (-2) (-1) 4 sampleContext
                 sampleWorld = (Ok sampleExpected, sampleWorld2))
    by (vm_compute; reflexivity).
  assert (H2 : Contains sampleExpected 2 = true) by reflexivity.
  split; [exact H2|].
  exact (getExpectedTokens_sources sampleLook (-2) (-1) 4 sampleContext
           sampleWorld sampleExpected sampleWorld2 H1 2 H2).
Defined.

(** ** [getExpectedTokens] and the reference algorithm of the
    specification *)

Section FollowsReference.

Variable Look : Analyzer.
Variable TokenEpsilon TokenEOF : Z.

(** The follow state of a state number is read off the graph, which
    queries leave as it is. *)
Lemma refFollowState_stable w w' inv :
  memoExtends Look w w' → refFollowState w' inv = refFollowState w inv.
Proof.
  intros H. unfold refFollowState. rewrite (ext_atn _ _ _ H).
  case_decide; [|done].
  destruct (states (atn w) !! Z.to_nat inv) as [[p|]|]; try done.
  pose proof (graph_lookup _ _ p (ext_graph _ _ _ H)) as Hg.
  destruct (heap w !! p) as [o|], (heap w' !! p) as [o'|];
    simpl in Hg; try done.
  injection Hg as _ _ Htr _. by rewrite Htr.
Qed.

(** The steps of the loop body up to the type assertion on the
    transition return the follow state the graph holds for the invoking
    state, and panic where it holds none. *)
Lemma enclosingFollowState_refFollowState w inv :
  0 ≤ inv →
  match refFollowState w inv with
  | Some fs => enclosingFollowState inv w = (Ok fs, w)
  | None => ∃ e, enclosingFollowState inv w = (Panicked e, w)
  end.
Proof.
  intros Hinv.
  unfold refFollowState, enclosingFollowState, bind, get, at_index, index,
    deref.
  rewrite !decide_True by done.
  destruct (states (atn w) !! Z.to_nat inv) as [[p|]|]; simpl;
    try (by eexists).
  destruct (heap w !! p) as [o|]; simpl; [|by eexists].
  destruct (transitions o) as [|[t fs|t|] rest]; simpl;
    try (by eexists); done.
Qed.

(** The loop of the code and the walk of the reference, turn by turn:
    on a linked chain they stop at the same link with the same last
    [following], and [expected] holds the tokens of the accumulator,
    epsilon apart. *)
Lemma expectedLoopFrom_refWalkFrom w0 c :
  chainLinked c = true →
  ∀ following expected acc w,
    memoExtends Look w0 w →
    (∀ t, t ≠ TokenEpsilon → (t ∈ elems expected ↔ t ∈ acc)) →
    match refWalkFrom (localAnswer Look w0) (refFollowState w0)
            TokenEpsilon c following acc with
    | Some (fl, acc') =>
        ∃ ex w',
          expectedLoopFrom Look TokenEpsilon c following expected w
            = (Ok (fl, ex), w')
          ∧ readOnly ex = readOnly expected
          ∧ ∀ t, t ≠ TokenEpsilon → (t ∈ elems ex ↔ t ∈ acc')
    | None =>
        ∃ e w',
          expectedLoopFrom Look TokenEpsilon c following expected w
            = (Panicked e, w')
    end.
Proof.
  induction c as [inv|inv p IH] using RuleContextObj_chain_ind;
    intros Hl following expected acc w Hext Hacc;
    rewrite expectedLoopFrom_unfold; cbn [refWalkFrom].
  - cbn [chainLinked] in Hl. apply bool_decide_eq_true in Hl.
    rewrite bool_decide_eq_false_2 by lia. cbn [andb].
    eexists _, _. split; [reflexivity|]. split; [done|exact Hacc].
  - cbn [chainLinked] in Hl.
    destruct (bool_decide (0 ≤ inv) && Contains following TokenEpsilon)
      eqn:Hg.
    2:{ eexists _, _. split; [reflexivity|]. split; [done|exact Hacc]. }
    apply andb_true_iff in Hg as [Hinv%bool_decide_eq_true _].
    pose proof (enclosingFollowState_refFollowState w inv Hinv) as Hfs.
    rewrite (refFollowState_stable w0 w inv Hext) in Hfs.
    destruct (refFollowState w0 inv) as [fs|].
    2:{ destruct Hfs as [e He]. rewrite (bind_Panicked _ _ _ _ _ He).
        by eexists _, _. }
    rewrite (bind_Ok _ _ _ _ _ Hfs).
    pose proof (NextTokens_result_stable Look fs None w0 w Hext) as Hst.
    pose proof (NextTokens_extending Look fs None w) as Hext2.
    unfold localAnswer at 1. rewrite <- Hst.
    destruct (NextTokens Look fs None w) as [[fl|e] w2] eqn:Hn;
      cbn [fst snd] in *.
    2:{ rewrite (bind_Panicked _ _ _ _ _ Hn). by eexists _, _. }
    rewrite (bind_Ok _ _ _ _ _ Hn).
    assert (Hacc' : ∀ t, t ≠ TokenEpsilon →
              (t ∈ elems (removeOne (addSet expected fl) TokenEpsilon)
               ↔ t ∈ acc ∪ (elems fl ∖ {[ TokenEpsilon ]}))).
    { intros t Ht. specialize (Hacc t Ht). simpl. set_solver. }
    specialize (IH Hl fl (removeOne (addSet expected fl) TokenEpsilon)
                  (acc ∪ (elems fl ∖ {[ TokenEpsilon ]})) w2
                  (memoExtends_trans Look _ _ _ Hext Hext2) Hacc').
    destruct (refWalkFrom _ _ _ p fl _) as [[fl' acc']|]; exact IH.
Qed.

End FollowsReference.

(** C1 (as amended): on a context chain in which every link is linked
    up to a link without a valid invoking state, [getExpectedTokens]
    follows the reference algorithm of the specification, run with the
    answers of [NextTokens] without a context and the follow states of
    the graph: it panics with the message of the invalid state number
    where the reference reports it, panics where the reference has no
    answer, returns the local set itself where that set holds no
    epsilon, and otherwise returns a new set that holds, epsilon apart,
    exactly the tokens the reference accumulates. *)
Theorem getExpectedTokens_reference (Look : Analyzer)
    (TokenEpsilon TokenEOF : Z) (stateNumber : Z) (ctx : RuleContext)
    (w : World) :
  wellLinked ctx = true →
  followsReference Look TokenEpsilon TokenEOF stateNumber ctx w.
Proof.
  intros Hl. unfold followsReference, refExpected.
  case_decide as Hr.
  2:{ by rewrite getExpectedTokens_invalid by lia. }
  destruct (states (atn w) !! Z.to_nat stateNumber) as [s|] eqn:Hs.
  2:{ apply lookup_ge_None in Hs. unfold len in Hr. lia. }
  assert (Hi : index (states (atn w)) stateNumber = Some s).
  { unfold index. by rewrite decide_True by lia. }
  rewrite getExpectedTokens_valid by lia.
  unfold at_index. rewrite Hi.
  rewrite (bind_Ok (ret s) _ w s w eq_refl).
  pose proof (NextTokens_extending Look s None w) as Hext.
  destruct (NextTokens Look s None w) as [[following|e] w1] eqn:Hn;
    cbn [fst snd] in Hext.
  2:{ assert (Hla : localAnswer Look w s = None)
        by (unfold localAnswer; by rewrite Hn).
      rewrite Hla, (bind_Panicked _ _ _ _ _ Hn). by eexists. }
  assert (Hla : localAnswer Look w s = Some following)
    by (unfold localAnswer; by rewrite Hn).
  rewrite Hla, (bind_Ok _ _ _ _ _ Hn).
  destruct (Contains following TokenEpsilon) eqn:Hf; cbn [negb];
    [|reflexivity].
  assert (Hseed : ∀ t, t ≠ TokenEpsilon →
            (t ∈ elems (removeOne (addSet NewIntervalSet following)
                          TokenEpsilon)
             ↔ t ∈ elems following ∖ {[ TokenEpsilon ]})).
  { intros t Ht. simpl. set_solver. }
  assert (Hloop :
    match refWalk (localAnswer Look w) (refFollowState w) TokenEpsilon
            ctx following (elems following ∖ {[ TokenEpsilon ]}) with
    | Some (fl, acc') =>
        ∃ ex w',
          expectedLoop Look TokenEpsilon ctx following
            (removeOne (addSet NewIntervalSet following) TokenEpsilon) w1
            = (Ok (fl, ex), w')
          ∧ readOnly ex = false
          ∧ ∀ t, t ≠ TokenEpsilon → (t ∈ elems ex ↔ t ∈ acc')
    | None =>
        ∃ e w',
          expectedLoop Look TokenEpsilon ctx following
            (removeOne (addSet NewIntervalSet following) TokenEpsilon) w1
            = (Panicked e, w')
    end).
  { destruct ctx as [c|]; unfold refWalk, expectedLoop.
    - exact (expectedLoopFrom_refWalkFrom Look TokenEpsilon w c Hl
               following _ _ w1 Hext Hseed).
    - eexists _, _. split; [reflexivity|]. split; [done|exact Hseed]. }
  destruct (refWalk _ _ _ ctx following _) as [[fl acc']|].
  2:{ destruct Hloop as (e & w' & He).
      rewrite (bind_Panicked _ _ _ _ _ He). by eexists. }
  destruct Hloop as (ex & w' & He & Hro & Hex).
  rewrite (bind_Ok _ _ _ _ _ He). cbn [fst snd].
  eexists. split; [reflexivity|].
  destruct (Contains fl TokenEpsilon); (split; [exact Hro|]).
  - intros t Ht. specialize (Hex t Ht). simpl. set_solver.
  - exact Hex.
Qed.

(** C1 (counterexample): at the start state of rule [B] of the sample
    grammar, under a link that records the invocation from state 1 and
    has no parent, the reference algorithm stops at the missing parent
    and answers with tokens 1 and 2, while [getExpectedTokens] has
    processed the link and panics at the type assertion on its [nil]
    parent. *)
Lemma getExpectedTokens_reference_unlinked :
  ¬ followsReference sampleLook (-2) (-1) 4
      (Some (mkRuleContext 1 None)) sampleWorld.
Proof.
  unfold followsReference. intros H.
  assert (Hc : (getExpectedTokens sampleLook (-2) (-1) 4
                  (Some (mkRuleContext 1 None)) sampleWorld).1
               = Panicked TypeAssertion) by (vm_compute; reflexivity).
  assert (Hr : refExpected (localAnswer sampleLook sampleWorld)
                 (refFollowState sampleWorld) (-2) (-1)
                 (states (atn sampleWorld)) 4 (Some (mkRuleContext 1 None))
               = RefTokens {[ 1; 2 ]}) by (vm_compute; reflexivity).
  rewrite Hc, Hr in H. by destruct H as (r & Hr' & _).
Qed.

(** The answers of the reference algorithm on the sample grammar: the
    tokens accumulated at the start of rule [B] called from state 1,
    the local set at state 2, and the invalid state number for a number
    that is not a state number. *)
Example sample_reference :
  refExpected (localAnswer sampleLook sampleWorld)
    (refFollowState sampleWorld) (-2) (-1) (states (atn sampleWorld))
    4 sampleContext = RefTokens {[ 1; 2 ]}
  ∧ refExpected (localAnswer sampleLook sampleWorld)
      (refFollowState sampleWorld) (-2) (-1) (states (atn sampleWorld))
      4 None = RefTokens {[ 1; -1 ]}
  ∧ refExpected (localAnswer sampleLook sampleWorld)
      (refFollowState sampleWorld) (-2) (-1) (states (atn sampleWorld))
      2 sampleContext = RefLocal sampleOuter
  ∧ refExpected (localAnswer sampleLook sampleWorld)
      (refFollowState sampleWorld) (-2) (-1) (states (atn sampleWorld))
      6 sampleContext = RefInvalidState.
Proof. repeat split; vm_compute; reflexivity. Qed.

(** C1 (witness): the run on the sample grammar under [sampleContext],
    a chain of two links. *)
Lemma getExpectedTokens_reference_witness :
  wellLinked sampleContext = true
  ∧ followsReference sampleLook (-2) (-1) 4 sampleContext sampleWorld.
Proof.
  split; [reflexivity|].
  apply (getExpectedTokens_reference sampleLook (-2) (-1) 4 sampleContext
           sampleWorld).
  reflexivity.
Defined.

(** ** A walk of one level *)

(** X18: when the local set holds epsilon and the set computed at the
    follow state of the top link's invoking state does not, the walk
    stops after that one level, without looking at the rest of the
    chain: [getExpectedTokens] returns a new set whose tokens are tokens
    of the local set or of the set of that level, and which holds every
    token of these two sets other than epsilon; the end-of-input marker
    is not added. *)
Theorem getExpectedTokens_one_level (Look : Analyzer)
    (TokenEpsilon TokenEOF : Z) (stateNumber inv : Z)
    (par : RuleContextObj) (w : World) (s : ATNState)
    (following : IntervalSet) (w1 : World) (fs : ATNState)
    (outer : IntervalSet) (w2 : World) :
  index (states (atn w)) stateNumber = Some s →
  NextTokens Look s None w = (Ok following, w1) →
  Contains following TokenEpsilon = true →
  0 ≤ inv →
  enclosingFollowState inv w1 = (Ok fs, w1) →
  NextTokens Look fs None w1 = (Ok outer, w2) →
  Contains outer TokenEpsilon = false →
  ∃ r,
    getExpectedTokens Look TokenEpsilon TokenEOF stateNumber
        (Some (mkRuleContext inv (Some par))) w
      = (Ok r, w2)
    ∧ readOnly r = false
    ∧ (∀ t, Contains r t = true →
         Contains following t = true ∨ Contains outer t = true)
    ∧ (∀ t, t ≠ TokenEpsilon →
         Contains following t = true ∨ Contains outer t = true →
         Contains r t = true).
Proof.
  intros Hs Hn Hf Hinv Hfs Hout Ho.
  rewrite (getExpectedTokens_epsilon _ _ _ _ _ _ _ _ _ Hs Hn Hf).
  set (e1 := removeOne
               (addSet (removeOne (addSet NewIntervalSet following)
                          TokenEpsilon) outer) TokenEpsilon).
  assert (Hloop : expectedLoop Look TokenEpsilon
            (Some (mkRuleContext inv (Some par))) following
            (removeOne (addSet NewIntervalSet following) TokenEpsilon) w1
          = (Ok (outer, e1), w2)).
  { unfold expectedLoop. rewrite expectedLoopFrom_unfold.
    rewrite bool_decide_eq_true_2, Hf by done. cbn [andb].
    rewrite (bind_Ok _ _ _ _ _ Hfs), (bind_Ok _ _ _ _ _ Hout).
    destruct par as [inv' par']. rewrite expectedLoopFrom_unfold.
    by rewrite Ho, andb_false_r. }
  rewrite (bind_Ok _ _ _ _ _ Hloop). cbn [fst snd]. rewrite Ho.
  exists e1. split; [reflexivity|]. split; [reflexivity|].
  split; intros t; rewrite !Contains_true; unfold e1; simpl; set_solver.
Qed.

(** The decision table of the sample graph with states 0 and 4 defined
    as decisions agrees with the indices the two states carry. *)
Lemma sample_decisionsIndexed : decisionsIndexed sampleDecisionWorld.
Proof.
  intros i p H. apply index_Some_range in H as Hr.
  change (len (DecisionToState (atn sampleDecisionWorld))) with 2 in Hr.
  assert (i = 0 ∨ i = 1) as Hi by lia.
  destruct Hi as [?|?]; subst i;
    vm_compute in H; injection H as <-;
    eexists; (split; [vm_compute; reflexivity|reflexivity]).
Qed.

(** X12 (witness): the sample graph with states 0 and 4 defined as
    decisions: the agreement survives removing state 0 and a run of
    queries, and the index 1 carried by state 4 leads back to it. *)
Lemma decisions_carry_their_index_witness :
  decisionsIndexed sampleDecisionWorld
  ∧ decisionsIndexed (exec (removeState (Some 100%nat)) sampleDecisionWorld)
  ∧ decisionsIndexed
      (runQueries sampleLook (-2) (-1) sampleQueries sampleDecisionWorld)
  ∧ getDecisionState 1 sampleDecisionWorld
    = (Ok (Some 104%nat), sampleDecisionWorld).
Proof.
  destruct (decisions_carry_their_index sampleLook (-2) (-1)
              sampleDecisionWorld sample_decisionsIndexed)
    as (_ & _ & Hr & Hq & Hg).
  split; [exact sample_decisionsIndexed|]. split; [apply Hr|].
  split; [apply Hq|].
  apply (Hg 104%nat (setDecision sampleStateB 1)).
  - change (DecisionToState (atn sampleDecisionWorld))
      with [Some 100%nat; Some 104%nat].
    set_solver.
  - vm_compute. reflexivity.
Defined.

(** X18 (witness): the run on the sample grammar under
    [sampleContext]; token 2 of the set computed at the follow state is
    in the returned set, and the end-of-input marker is not. *)
Lemma getExpectedTokens_one_level_witness :
  enclosingFollowState 1 sampleWorld1 = (Ok (Some 102%nat), sampleWorld1)
  ∧ Contains sampleOuter (-2) = false
  ∧ ∃ r,
      getExpectedTokens sampleLook (-2) (-1) 4 sampleContext sampleWorld
        = (Ok r, sampleWorld2)
      ∧ readOnly r = false
      ∧ (∀ t, Contains r t = true →
           Contains sampleFollowing t = true ∨ Contains sampleOuter t = true)
      ∧ (∀ t, t ≠ -2 →
           Contains sampleFollowing t = true ∨ Contains sampleOuter t = true →
           Contains r t = true).
Proof.
  assert (H1 : enclosingFollowState 1 sampleWorld1
               = (Ok (Some 102%nat), sampleWorld1))
    by (vm_compute; reflexivity).
  assert (H2 : Contains sampleOuter (-2) = false) by reflexivity.
  split; [exact H1|]. split; [exact H2|].
  apply (getExpectedTokens_one_level sampleLook (-2) (-1) 4 1 EmptyContext
           sampleWorld (Some 104%nat) sampleFollowing sampleWorld1
           (Some 102%nat) sampleOuter sampleWorld2).
  - reflexivity.
  - vm_compute. reflexivity.
  - reflexivity.
  - lia.
  - exact H1.
  - vm_compute. reflexivity.
  - exact H2.
Defined.
